(** * LotusPlanner logging-migration scripts: a shallow embedding

    The repository holds two one-shot Python scripts that rewrite Swift
    sources, replacing diagnostic [print(...)] statements by calls of a
    logging facility:

    - [optimize_logging_simple.py], the literal-replacement variant
      (module [Simple] below), and
    - [optimize_logging.py], the regular-expression variant (module
      [Regex] below).

    Python values are modelled as follows.  A [str] is the list of its
    Unicode code points.  The file system is a finite map from paths to
    files; a file carries its decoded text (or the fact that its bytes do
    not decode as UTF-8) and its permissions.  [open]/[read]/[write] and
    the [re] calls may raise, so the scripts live in a state-and-exception
    monad: the state survives an exception, exactly as a partially
    processed directory tree survives an aborted run. *)

From Stdlib Require Import NArith ZArith Ascii String Lia.
From stdpp Require Import base option list strings gmap.

Open Scope N_scope.

(** ** Python [str] *)

(** A Python string: the sequence of its code points. *)
Abbreviation str := (list N).

(** An ASCII literal of the source as a [str]. *)
Definition py (s : string) : str :=
  N_of_ascii <$> list_ascii_of_string s.

Definition dquote : N := 34.
Definition newline : N := 10.
Definition backslash : N := 92.

(** [s.startswith(p)]. *)
Fixpoint startswith (p s : str) : bool :=
  match p, s with
  | [], _ => true
  | _ :: _, [] => false
  | a :: p', b :: s' => (a =? b) && startswith p' s'
  end.

(** [needle in s]. *)
Fixpoint contains (needle s : str) : bool :=
  startswith needle s ||
  match s with
  | [] => false
  | _ :: s' => contains needle s'
  end.

(** [str.replace(old, new)] for a non-empty [old]: scan from the left; at
    an occurrence of [old] emit [new] and skip the occurrence, otherwise
    copy one character.  [skip] counts the characters of the current
    occurrence still to be dropped. *)
Fixpoint replace_go (old new : str) (skip : nat) (s : str) : str :=
  match s with
  | [] => []
  | c :: s' =>
      match skip with
      | S k => replace_go old new k s'
      | O =>
          if startswith old s
          then new ++ replace_go old new (pred (length old)) s'
          else c :: replace_go old new 0 s'
      end
  end.

(** [s.replace(old, new)].  With an empty [old] Python puts [new] before
    every character and at the end. *)
Definition replace (old new s : str) : str :=
  match old with
  | [] => new ++ flat_map (fun c => c :: new) s
  | _ :: _ => replace_go old new 0 s
  end.

(** [s.split(sep)] for a one-character separator: never the empty list. *)
Fixpoint split (sep : N) (s : str) : list str :=
  match s with
  | [] => [[]]
  | c :: s' =>
      if c =? sep then [] :: split sep s'
      else match split sep s' with
           | l :: ls => (c :: l) :: ls
           | [] => [[c]]
           end
  end.

(** [sep.join(ls)]. *)
Fixpoint join (sep : str) (ls : list str) : str :=
  match ls with
  | [] => []
  | [l] => l
  | l :: ls' => l ++ sep ++ join sep ls'
  end.

(** [c.isspace()]: the code points Python strips and the ones [\s]
    matches in a [str] pattern. *)
Definition isspace (c : N) : bool :=
  ((9 <=? c) && (c <=? 13)) || ((28 <=? c) && (c <=? 32))
  || (c =? 133) || (c =? 160) || (c =? 5760)
  || ((8192 <=? c) && (c <=? 8202))
  || (c =? 8232) || (c =? 8233) || (c =? 8239) || (c =? 8287)
  || (c =? 12288).

Fixpoint lstrip (s : str) : str :=
  match s with
  | [] => []
  | c :: s' => if isspace c then lstrip s' else s
  end.

Definition rstrip (s : str) : str := reverse (lstrip (reverse s)).

(** [s.strip()]. *)
Definition strip (s : str) : str := rstrip (lstrip s).

(** [l.insert(i, x)] for [0 <= i]: past the end it appends. *)
Definition list_insert_at {A} (i : nat) (x : A) (l : list A) : list A :=
  take i l ++ x :: drop i l.

(** ** The world: files and console *)

(** A file: its text as [open(..., encoding='utf-8')] decodes it ([None]
    when the bytes are not valid UTF-8) and whether it may be read and
    written. *)
Record file := File { data : option str; readable : bool; writable : bool }.

(** The lines the scripts print. *)
Inductive out_line :=
  | Optimized (file_path : string)      (* f"Optimized: {file_path}" *)
  | Summary (optimized_count : nat).    (* f"Optimized {optimized_count} files" *)

Record world := World { files : gmap string file; stdout : list out_line }.

(** What [re] raises for a replacement template. *)
Inductive re_error :=
  | InvalidGroupReference (index : nat)
  | BadEscape
  | UnmodelledTemplate.

Inductive exn :=
  | FileNotFoundError (file_path : string)
  | PermissionError (file_path : string)
  | UnicodeDecodeError (file_path : string)
  | ReError (e : re_error).

Inductive result (A : Type) :=
  | Ok (a : A)
  | Raise (e : exn).
Arguments Ok {A} a.
Arguments Raise {A} e.

(** Computations of the scripts: the world is threaded through and kept
    when an exception is raised. *)
Definition M (A : Type) : Type := world -> result A * world.

#[global] Instance M_ret : MRet M := fun A a w => (Ok a, w).
#[global] Instance M_bind : MBind M := fun A B f m w =>
  match m w with
  | (Ok a, w') => f a w'
  | (Raise e, w') => (Raise e, w')
  end.

Definition raise {A} (e : exn) : M A := fun w => (Raise e, w).

(** [with open(file_path, 'r', encoding='utf-8') as f: f.read()]. *)
Definition read_text (file_path : string) : M str := fun w =>
  match files w !! file_path with
  | None => (Raise (FileNotFoundError file_path), w)
  | Some f =>
      if readable f then
        match data f with
        | Some content => (Ok content, w)
        | None => (Raise (UnicodeDecodeError file_path), w)
        end
      else (Raise (PermissionError file_path), w)
  end.

(** [with open(file_path, 'w', encoding='utf-8') as f: f.write(content)]:
    an existing file must be writable and is replaced as a whole; a
    missing one is created. *)
Definition write_text (file_path : string) (content : str) : M unit := fun w =>
  match files w !! file_path with
  | Some f =>
      if writable f then
        (Ok (), World (<[file_path := File (Some content) (readable f) true]> (files w))
                      (stdout w))
      else (Raise (PermissionError file_path), w)
  | None =>
      (Ok (), World (<[file_path := File (Some content) true true]> (files w)) (stdout w))
  end.

(** [print(...)]. *)
Definition print (l : out_line) : M unit := fun w =>
  (Ok (), World (files w) (stdout w ++ [l])).

(** The text stored at a path, when there is a decodable file. *)
Definition text_at (w : world) (file_path : string) : option str :=
  files w !! file_path ≫= data.

(** ** What both scripts share *)

(** The statement the scripts add, and the marker of a print call. *)
Definition target_import : str := py "import PerformanceLogger".
Definition print_marker : str := py "print(".

(** [f("msg")] as Swift text. *)
Definition call (f : string) (msg : str) : str :=
  py f ++ py "(" ++ [dquote] ++ msg ++ [dquote] ++ py ")".

(** The emoji that prefix the messages. *)
Definition e_cycle : str := [0x1F504].            (* U+1F504 *)
Definition e_warning : str := [0x26A0; 0xFE0F].   (* U+26A0 U+FE0F *)
Definition e_disk : str := [0x1F4BE].             (* U+1F4BE *)
Definition e_check : str := [0x2705].             (* U+2705 *)
Definition e_cross : str := [0x274C].             (* U+274C *)
Definition e_inbox : str := [0x1F4E5].            (* U+1F4E5 *)
Definition e_camera : str := [0x1F4F8].           (* U+1F4F8 *)

(** The tail of [optimize_file], the same text in both scripts: write
    only if the content changed. *)
Definition write_if_changed (file_path : string) (original_content content : str)
  : M bool :=
  if bool_decide (content ≠ original_content) then
    write_text file_path content ;;
    print (Optimized file_path) ;;
    mret true
  else mret false.

(** [main], the same text in both scripts, over the script's own
    [optimize_file].  [glob] stands for
    [glob.glob('LotusPlannerV3/LotusPlannerV3/**/*.swift', recursive=True)],
    evaluated once, before the loop. *)
Section Main.
Variable glob : world -> list string.
Variable optimize_file : string -> M bool.

Fixpoint for_each (swift_files : list string) (optimized_count : nat) : M nat :=
  match swift_files with
  | [] => mret optimized_count
  | file_path :: rest =>
      modified ← optimize_file file_path;
      for_each rest (if modified : bool then S optimized_count else optimized_count)
  end.

Definition main_with : M unit := fun w =>
  (optimized_count ← for_each (glob w) 0;
   print (Summary optimized_count)) w.
End Main.

(** ** [optimize_logging_simple.py] *)

Module Simple.

(** The loop that finds the last import line. *)
Fixpoint scan_imports (i : nat) (lines : list str) (import_index : Z) : Z :=
  match lines with
  | [] => import_index
  | line :: rest =>
      scan_imports (S i) rest
        (if startswith (py "import ") (strip line) then Z.of_nat i else import_index)
  end.

(** "Add import if not present and file has print statements". *)
Definition add_import (content : str) : str :=
  if negb (contains target_import content) && contains print_marker content then
    let lines := split newline content in
    let import_index := scan_imports 0 lines (-1) in
    if (0 <=? import_index)%Z then
      join [newline]
        (list_insert_at (Z.to_nat (import_index + 1)) target_import lines)
    else content
  else content.

Definition jv (emoji : str) (msg : string) : str :=
  call "print" (emoji ++ py " JournalView: " ++ py msg).

Definition replacements : list (str * str) :=
  [ (jv e_cycle "Loading drawing for journal page date: \(currentDate)",
     call "logPerformance" (py "Loading drawing for journal page date: \(currentDate)"));
    (jv e_cycle "Loaded existing drawing for date: \(targetDate)",
     call "logPerformance" (py "Loaded existing drawing for date: \(targetDate)"));
    (jv e_warning "Date changed during drawing load, ignoring stale data",
     call "logWarning" (py "Date changed during drawing load, ignoring stale data"));
    (jv e_cycle "No existing drawing found for date: \(targetDate)",
     call "logPerformance" (py "No existing drawing found for date: \(targetDate)"));
    (jv e_warning "Save blocked - operation in progress",
     call "logWarning" (py "Save blocked - operation in progress"));
    (jv e_disk "Starting explicit save to iCloud for \(currentDate)",
     call "logPerformance" (py "Starting explicit save to iCloud for \(currentDate)"));
    (jv e_disk "Saving drawing to iCloud",
     call "logPerformance" (py "Saving drawing to iCloud"));
    (jv e_disk "Saving photos to iCloud",
     call "logPerformance" (py "Saving photos to iCloud"));
    (jv e_check "Successfully saved to iCloud",
     call "logInfo" (py "Successfully saved to iCloud"));
    (jv e_cross "Failed to save to iCloud: \(error.localizedDescription)",
     call "logError" (py "Failed to save to iCloud: \(error.localizedDescription)"));
    (jv e_warning "Load blocked - operation in progress",
     call "logWarning" (py "Load blocked - operation in progress"));
    (jv e_inbox "Loading from iCloud for \(currentDate)",
     call "logPerformance" (py "Loading from iCloud for \(currentDate)"));
    (jv e_inbox "Successfully loaded drawing from iCloud",
     call "logInfo" (py "Successfully loaded drawing from iCloud"));
    (jv e_inbox "No drawing found in iCloud",
     call "logInfo" (py "No drawing found in iCloud"));
    (jv e_check "Successfully loaded from iCloud",
     call "logInfo" (py "Successfully loaded from iCloud"));
    (jv e_cross "Failed to load from iCloud: \(error.localizedDescription)",
     call "logError" (py "Failed to load from iCloud: \(error.localizedDescription)"));
    (jv e_warning "Date switch blocked - save/load in progress",
     call "logWarning" (py "Date switch blocked - save/load in progress"));
    (jv e_cycle "Switching to date \(newDate)",
     call "logPerformance" (py "Switching to date \(newDate)")) ].

(** [for old, new in replacements: content = content.replace(old, new)]. *)
Fixpoint apply_replacements (rules : list (str * str)) (content : str) : str :=
  match rules with
  | [] => content
  | (old, new) :: rest => apply_replacements rest (replace old new content)
  end.

Definition optimize_file (file_path : string) : M bool :=
  content ← read_text file_path;
  let original_content := content in
  let content := add_import content in
  let content := apply_replacements replacements content in
  write_if_changed file_path original_content content.

Definition main (glob : world -> list string) : M unit :=
  main_with glob optimize_file.

End Simple.

(** ** The part of Python's [re] the script uses *)

Module Re.

(** One-character matchers: a literal, [.], [\s] and [[^\n]]. *)
Inductive cset :=
  | Chr (c : N)
  | Dot
  | Space
  | NotNewline.

Definition cset_match (cs : cset) (c : N) : bool :=
  match cs with
  | Chr a => c =? a
  | Dot => negb (c =? newline)
  | Space => isspace c
  | NotNewline => negb (c =? newline)
  end.

(** A matcher alone, or under a greedy [*] or [+]. *)
Inductive atom :=
  | One (cs : cset)
  | Star (cs : cset)
  | Plus (cs : cset).

(** A pattern is a sequence of atoms and of capturing groups of atoms;
    the script's patterns nest no groups and repeat none. *)
Inductive node :=
  | Item (a : atom)
  | Group (body : list atom).

Abbreviation regex := (list node).

Definition is_group (n : node) : bool :=
  match n with Group _ => true | Item _ => false end.

(** [pattern.groups]. *)
Definition groups (r : regex) : nat := length (filter is_group r).

(** The pattern that matches the text [s] literally. *)
Definition lits (s : str) : list atom := (fun c => One (Chr c)) <$> s.
Definition lit (s : str) : regex := Item <$> lits s.

(** Backtracking matcher in continuation-passing style: [k] is tried on
    what is left, longest repetition first. *)
Section Matcher.
Context {R : Type}.

Fixpoint m_star (cs : cset) (s : str) (k : str -> option R) : option R :=
  match s with
  | c :: s' =>
      if cset_match cs c then
        match m_star cs s' k with
        | Some r => Some r
        | None => k s
        end
      else k s
  | [] => k []
  end.

Definition m_one (cs : cset) (s : str) (k : str -> option R) : option R :=
  match s with
  | c :: s' => if cset_match cs c then k s' else None
  | [] => None
  end.

Definition m_atom (a : atom) (s : str) (k : str -> option R) : option R :=
  match a with
  | One cs => m_one cs s k
  | Star cs => m_star cs s k
  | Plus cs => m_one cs s (fun s' => m_star cs s' k)
  end.

Fixpoint m_atoms (atoms : list atom) (s : str) (k : str -> option R) : option R :=
  match atoms with
  | [] => k s
  | a :: rest => m_atom a s (fun s' => m_atoms rest s' k)
  end.
End Matcher.

(** Match the nodes at the head of [s]: the groups' texts so far and
    what is left of [s]. *)
Fixpoint m_nodes (ns : regex) (caps : list str) (s : str) : option (list str * str) :=
  match ns with
  | [] => Some (caps, s)
  | Item a :: ns' => m_atom a s (fun s' => m_nodes ns' caps s')
  | Group body :: ns' =>
      m_atoms body s
        (fun s' => m_nodes ns' (caps ++ [take (length s - length s') s]) s')
  end.

(** [pattern.match] at the head of [s]: the matched text and the groups. *)
Definition match_at (r : regex) (s : str) : option (str * list str) :=
  match m_nodes r [] s with
  | Some (caps, rest) => Some (take (length s - length rest) s, caps)
  | None => None
  end.

(** What [findall] lists for a match: the match itself, or the group of
    a pattern with one group. *)
Definition findall_item (m : str * list str) : str :=
  match m.2 with
  | [] => m.1
  | g :: _ => g
  end.

Fixpoint findall_go (r : regex) (skip : nat) (s : str) : list str :=
  match s with
  | [] =>
      match match_at r [] with
      | Some m => [findall_item m]
      | None => []
      end
  | c :: s' =>
      match skip with
      | S k => findall_go r k s'
      | O =>
          match match_at r s with
          | Some m => findall_item m :: findall_go r (pred (length m.1)) s'
          | None => findall_go r 0 s'
          end
      end
  end.

(** [re.findall(pattern, s)]: the non-overlapping matches, left to right. *)
Definition findall (r : regex) (s : str) : list str := findall_go r 0 s.

(** A parsed replacement template. *)
Inductive tpl :=
  | Lit (c : N)
  | Ref (index : nat).

Definition is_digit (c : N) : bool := (48 <=? c) && (c <=? 57).
Definition is_ascii_letter (c : N) : bool :=
  ((65 <=? c) && (c <=? 90)) || ((97 <=? c) && (c <=? 122)).

(** The template escapes that stand for one character. *)
Definition escape (c : N) : option N :=
  if c =? 97 then Some 7          (* \a *)
  else if c =? 98 then Some 8     (* \b *)
  else if c =? 102 then Some 12   (* \f *)
  else if c =? 110 then Some 10   (* \n *)
  else if c =? 114 then Some 13   (* \r *)
  else if c =? 116 then Some 9    (* \t *)
  else if c =? 118 then Some 11   (* \v *)
  else if c =? backslash then Some backslash
  else None.

Definition cons_ok (x : tpl) (r : result (list tpl)) : result (list tpl) :=
  match r with
  | Ok l => Ok (x :: l)
  | Raise e => Raise e
  end.

(** The template compiler that [re.sub] runs on a string replacement
    before it looks for any match.  A backslash and a digit [1]..[9]
    refer to a group and are refused when the pattern has fewer groups;
    a backslash and an unknown ASCII letter are refused; a backslash and
    any other character stand for themselves.  Named and multi-digit
    references and octal escapes, which the script does not use, are
    left unmodelled. *)
Fixpoint parse_template (ngroups : nat) (t : str) : result (list tpl) :=
  match t with
  | [] => Ok []
  | c :: t' =>
      if c =? backslash then
        match t' with
        | [] => Raise (ReError BadEscape)
        | d :: t'' =>
            if is_digit d then
              if (d =? 48) || match t'' with e :: _ => is_digit e | [] => false end
              then Raise (ReError UnmodelledTemplate)
              else
                let index := N.to_nat (d - 48) in
                if bool_decide (index ≤ ngroups)%nat
                then cons_ok (Ref index) (parse_template ngroups t'')
                else Raise (ReError (InvalidGroupReference index))
            else if d =? 103 then Raise (ReError UnmodelledTemplate)
            else
              match escape d with
              | Some e => cons_ok (Lit e) (parse_template ngroups t'')
              | None =>
                  if is_ascii_letter d then Raise (ReError BadEscape)
                  else cons_ok (Lit backslash)
                         (cons_ok (Lit d) (parse_template ngroups t''))
              end
        end
      else cons_ok (Lit c) (parse_template ngroups t')
  end.

(** [match.expand(template)]: a group that took no part gives [""]. *)
Definition expand (t : list tpl) (m : str * list str) : str :=
  flat_map (fun x =>
              match x with
              | Lit c => [c]
              | Ref 0 => m.1
              | Ref (S i) => default [] (m.2 !! i)
              end) t.

Fixpoint sub_go (r : regex) (t : list tpl) (skip : nat) (s : str) : str :=
  match s with
  | [] =>
      match match_at r [] with
      | Some m => expand t m
      | None => []
      end
  | c :: s' =>
      match skip with
      | S k => sub_go r t k s'
      | O =>
          match match_at r s with
          | Some m =>
              match m.1 with
              | [] => expand t m ++ c :: sub_go r t 0 s'
              | _ :: w => expand t m ++ sub_go r t (length w) s'
              end
          | None => c :: sub_go r t 0 s'
          end
      end
  end.

(** [re.sub(pattern, repl, s)] for a string [repl]: the template is
    compiled first, whatever [s] holds. *)
Definition sub (pattern : regex) (repl : str) (s : str) : result str :=
  match parse_template (groups pattern) repl with
  | Ok t => Ok (sub_go pattern t 0 s)
  | Raise e => Raise e
  end.

End Re.

(** ** [optimize_logging.py] *)

Module Regex.
Import Re.

(** [r'(import\s+[^\n]+\n)']. *)
Definition import_pattern : regex :=
  [ Group (lits (py "import") ++ [Plus Space; Plus NotNewline; One (Chr newline)]) ].

(** "Add import if not present". *)
Definition add_import (content : str) : str :=
  if negb (contains target_import content) && contains print_marker content then
    let imports := findall import_pattern content in
    match last imports with
    | Some last_import =>
        replace last_import (last_import ++ py "import PerformanceLogger" ++ [newline])
          content
    | None => content
    end
  else content.

(** The JournalView patterns.  In the raw pattern the parentheses and
    the dot are escaped, so [msg] is the text the pattern matches:
    [\(currentDate\)] matches [(currentDate)]. *)
Definition jv (emoji : str) (msg : string) : regex :=
  lit (call "print" (emoji ++ py " JournalView: " ++ py msg)).

(** The general patterns, [r'print\("E.*"\)'] for an emoji [E]. *)
Definition wild (emoji : str) : regex :=
  lit (py "print(" ++ [dquote] ++ emoji) ++ [Item (Star Dot)]
    ++ lit ([dquote] ++ py ")").

(** ['f("\\1")']: the replacement of the general patterns. *)
Definition backref (f : string) : str :=
  call f [backslash; 49].

Definition replacements : list (regex * str) :=
  [ (jv e_cycle "Loading drawing for journal page date: (currentDate)",
     call "logPerformance" (py "Loading drawing for journal page date: \(currentDate)"));
    (jv e_cycle "Loaded existing drawing for date: (targetDate)",
     call "logPerformance" (py "Loaded existing drawing for date: \(targetDate)"));
    (jv e_warning "Date changed during drawing load, ignoring stale data",
     call "logWarning" (py "Date changed during drawing load, ignoring stale data"));
    (jv e_cycle "No existing drawing found for date: (targetDate)",
     call "logPerformance" (py "No existing drawing found for date: \(targetDate)"));
    (jv e_warning "Save blocked - operation in progress",
     call "logWarning" (py "Save blocked - operation in progress"));
    (jv e_disk "Starting explicit save to iCloud for (currentDate)",
     call "logPerformance" (py "Starting explicit save to iCloud for \(currentDate)"));
    (jv e_disk "Saving drawing to iCloud",
     call "logPerformance" (py "Saving drawing to iCloud"));
    (jv e_disk "Saving photos to iCloud",
     call "logPerformance" (py "Saving photos to iCloud"));
    (jv e_check "Successfully saved to iCloud",
     call "logInfo" (py "Successfully saved to iCloud"));
    (jv e_cross "Failed to save to iCloud: (error.localizedDescription)",
     call "logError" (py "Failed to save to iCloud: \(error.localizedDescription)"));
    (wild e_warning, backref "logWarning");
    (wild e_cross, backref "logError");
    (wild e_check, backref "logInfo");
    (wild e_cycle, backref "logPerformance");
    (wild e_camera, backref "logPerformance");
    (wild e_disk, backref "logPerformance");
    (wild e_inbox, backref "logPerformance") ].

(** [for pattern, replacement in replacements:
       content = re.sub(pattern, replacement, content)]. *)
Fixpoint apply_replacements (rules : list (regex * str)) (content : str) : result str :=
  match rules with
  | [] => Ok content
  | (pattern, replacement) :: rest =>
      match sub pattern replacement content with
      | Ok content' => apply_replacements rest content'
      | Raise e => Raise e
      end
  end.

Definition lift {A} (r : result A) : M A := fun w => (r, w).

Definition optimize_file (file_path : string) : M bool :=
  content ← read_text file_path;
  let original_content := content in
  let content := add_import content in
  content ← lift (apply_replacements replacements content);
  write_if_changed file_path original_content content.

Definition main (glob : world -> list string) : M unit :=
  main_with glob optimize_file.

End Regex.

(** ** The two scripts side by side *)

Inductive script :=
  | Literal     (* optimize_logging_simple.py *)
  | Regexp.     (* optimize_logging.py *)

Definition optimize_file (v : script) : string -> M bool :=
  match v with
  | Literal => Simple.optimize_file
  | Regexp => Regex.optimize_file
  end.

Definition add_import (v : script) : str -> str :=
  match v with
  | Literal => Simple.add_import
  | Regexp => Regex.add_import
  end.

Definition main (v : script) (glob : world -> list string) : M unit :=
  main_with glob (optimize_file v).

(** ** Notions the statements use *)

(** [needle] occurs in [s] as a contiguous substring. *)
Definition occurs (needle s : str) : Prop := ∃ a b, s = a ++ needle ++ b.

(** The line is one the literal script takes for an import. *)
Definition is_import_line (line : str) : bool :=
  startswith (py "import ") (strip line).

(** The index of the last element of [l] that satisfies [P]. *)
Fixpoint last_index {A} (P : A -> bool) (l : list A) : option nat :=
  match l with
  | [] => None
  | x :: l' =>
      match last_index P l' with
      | Some k => Some (S k)
      | None => if P x then Some 0%nat else None
      end
  end.

(** How many lines of [content] are the target import. *)
Definition count_import_lines (content : str) : nat :=
  length (filter (fun l => l = target_import) (split newline content)).

(** A file that can be read and holds [content]. *)
Definition holds (w : world) (file_path : string) (content : str) : Prop :=
  ∃ f, files w !! file_path = Some f ∧ readable f = true ∧ data f = Some content.

(** A rule of the literal table is well formed: its pattern is not empty
    and neither side spans lines. *)
Definition rule_ok (rule : str * str) : bool :=
  bool_decide (rule.1 ≠ []) && bool_decide (newline ∉ rule.1)
  && bool_decide (newline ∉ rule.2).

(** ** Auxiliary notions and sample inputs *)

(** The first rule of a table whose template [re] refuses. *)
Fixpoint first_refused (rules : list (Re.regex * str)) : option exn :=
  match rules with
  | [] => None
  | (pattern, repl) :: rest =>
      match Re.parse_template (Re.groups pattern) repl with
      | Ok _ => first_refused rest
      | Raise e => Some e
      end
  end.

(** A rule whose both sides hold an opening parenthesis. *)
Definition has_paren (rule : str * str) : bool :=
  bool_decide (40 ∈ rule.1) && bool_decide (40 ∈ rule.2)
  && bool_decide (rule.1 ≠ []).

Definition saved_print : str :=
  call "print" (e_check ++ py " JournalView: Successfully saved to iCloud").
Definition saved_log : str := call "logInfo" (py "Successfully saved to iCloud").


(** A world with one file, readable and writable, and an empty console. *)
Definition one_file (file_path : string) (content : str) : world :=
  World {[ file_path := File (Some content) true true ]} [].

(** The text of a file given by its lines. *)
Definition text (lines : list str) : str := join [newline] lines.

(** Sample Swift sources. *)
Definition no_print_swift : str :=
  text [py "import SwiftUI"; py "let x = 1"; []].
Definition journal_swift : str :=
  text [py "import SwiftUI"; saved_print; []].
Definition no_import_swift : str :=
  text [saved_print; []].
Definition two_imports_swift : str :=
  text [py "import Foundation"; py "import Foundation"; py "print(1)"; []].
Definition debug_swift : str :=
  text [py "import Foundation"; py "print(1)"; []].
Definition low_battery : str :=
  call "print" (e_warning ++ py " Low battery").
Definition save_blocked : str :=
  call "print" (e_warning ++ py " JournalView: Save blocked - operation in progress").

Definition invalid_group_reference : exn := ReError (InvalidGroupReference 1).

Definition imported_swift : str :=
  text [target_import; saved_print; []].

Definition two_files : world :=
  World (<[ "A.swift"%string := File (Some journal_swift) true true ]>
           {[ "C.swift"%string := File (Some journal_swift) true true ]}) [].

(** The content the literal script has computed when it reaches its
    comparison with the original. *)
Definition rewritten (content : str) : str :=
  Simple.apply_replacements Simple.replacements (Simple.add_import content).

(** The pattern of a rule holds the marker of a print call. *)
Definition has_marker (rule : str * str) : bool :=
  contains print_marker (fst rule).

(** Two files with the same permissions, or no file on either side. *)
Definition same_mode (f f' : option file) : Prop :=
  match f, f' with
  | Some f, Some f' => readable f' = readable f ∧ writable f' = writable f
  | None, None => True
  | _, _ => False
  end.

(** The worlds have the same paths, with the same permissions. *)
Definition same_shape (w w' : world) : Prop :=
  ∀ q, same_mode (files w !! q) (files w' !! q).

(** The literal script would change the file at this path. *)
Definition changes (w : world) (file_path : string) : bool :=
  match text_at w file_path with
  | Some content => bool_decide (rewritten content ≠ content)
  | None => false
  end.

(** The file at this path can be read, decoded and written. *)
Definition usable (w : world) (file_path : string) : Prop :=
  ∃ f content, files w !! file_path = Some f ∧ data f = Some content
               ∧ readable f = true ∧ writable f = true.

(** The text a pattern matches, when the pattern is made of literal
    characters only. *)
Definition as_literal (r : Re.regex) : option str :=
  mapM (λ n, match n with
             | Re.Item (Re.One (Re.Chr c)) => Some c
             | _ => None
             end) r.

(** The text of a template without group reference. *)
Definition as_text (t : list Re.tpl) : option str :=
  mapM (λ x, match x with Re.Lit c => Some c | Re.Ref _ => None end) t.

(** A rule of the regular-expression table read as a rule of literal
    replacement, when it is one. *)
Definition literal_rule (rule : Re.regex * str) : option (str * str) :=
  match as_literal (fst rule), Re.parse_template (Re.groups (fst rule)) (snd rule) with
  | Some old, Ok t =>
      match as_text t with
      | Some new => if bool_decide (old ≠ []) then Some (old, new) else None
      | None => None
      end
  | _, _ => None
  end.

(** A rule of the literal table with the backslashes of its pattern
    taken out. *)
Definition unescaped (rule : str * str) : str * str :=
  (filter (λ c, c ≠ backslash) (fst rule), snd rule).

(** The non-empty suffixes of a string. *)
Fixpoint tails (s : str) : list str :=
  match s with
  | [] => []
  | _ :: s' => s :: tails s'
  end.

(** No non-empty suffix of [b] is a prefix of [a] or begins with [a]:
    in a text, no occurrence of [b] can run into one of [a] that begins
    later, or hold it. *)
Definition no_overlap (a b : str) : bool :=
  forallb (λ y, negb (startswith y a) && negb (startswith a y)) (tails b).

(** Occurrences of [a] and of [b] in a text share no character. *)
Definition apart (a b : str) : bool := no_overlap a b && no_overlap b a.

(** [r] is [s] with some occurrences of [U] replaced by [V]. *)
Inductive rewrites (U V : str) : str → str → Prop :=
  | rewrites_nil : rewrites U V [] []
  | rewrites_match t r : rewrites U V t r → rewrites U V (U ++ t) (V ++ r)
  | rewrites_copy c s r : rewrites U V s r → rewrites U V (c :: s) (c :: r).

(** The table is closed: no replacement of a rule can make, complete or
    hold a pattern of a rule. *)
Definition closed_table (rules : list (str * str)) : bool :=
  forallb (λ r1, bool_decide (fst r1 ≠ [])
                 && forallb (λ r2, apart (snd r2) (fst r1)) rules) rules.

(** Some character of the string is not white space. *)
Definition has_nonspace (s : str) : bool := existsb (λ c, negb (isspace c)) s.

(** The string begins with a character that is not white space. *)
Definition starts_nonspace (s : str) : bool :=
  match s with
  | c :: _ => negb (isspace c)
  | [] => false
  end.

(** What opens an import line. *)
Definition import_prefix : str := py "import ".

(** Replacing one side of the rule by the other can neither make nor
    unmake an import line. *)
Definition import_safe (rule : str * str) : bool :=
  starts_nonspace (fst rule) && starts_nonspace (snd rule)
  && no_overlap (fst rule) import_prefix && no_overlap (snd rule) import_prefix.

(** No proper non-empty suffix of [s] is a prefix of [s]: two
    occurrences of [s] in a text cannot overlap. *)
Definition border_free (s : str) : bool :=
  forallb (λ y, negb (startswith y s)) (tails (tail s)).

(** In the table [pre ++ rule :: post] the rule stands alone: the
    patterns before it cannot meet its pattern, the patterns after it
    cannot meet its replacement, and its pattern cannot meet itself. *)
Definition stands_alone (pre : list (str * str)) (rule : str * str)
    (post : list (str * str)) : bool :=
  bool_decide (fst rule ≠ []) && border_free (fst rule)
  && forallb (λ r, bool_decide (fst r ≠ []) && apart (fst r) (fst rule)) pre
  && forallb (λ r, bool_decide (fst r ≠ []) && apart (fst r) (snd rule)) post.

(** The ways to take one element out of a list. *)
Fixpoint splits {A} (l : list A) : list (list A * A * list A) :=
  match l with
  | [] => []
  | x :: l' =>
      ([], x, l')
        :: ((λ s, (x :: fst (fst s), snd (fst s), snd s)) <$> splits l')
  end.

(** A listing of the two files of [two_files]. *)
Definition two_paths : list string := ["A.swift"; "C.swift"]%string.

(** * Properties *)

(** ** Evaluation checks *)

Example replace_ex :
  replace (py "ab") (py "X") (py "aababab.") = py "aXXX.".
Proof. reflexivity. Qed.

Example split_join_ex :
  split newline (py "a" ++ [newline] ++ py "b" ++ [newline]) = [py "a"; py "b"; []]
  /\ join [newline] [py "a"; py "b"; []] = py "a" ++ [newline] ++ py "b" ++ [newline].
Proof. split; reflexivity. Qed.

Example strip_ex : strip (py "  import x  ") = py "import x".
Proof. reflexivity. Qed.

(** ** Prefixes and occurrences *)

Lemma startswith_spec p s : startswith p s = true ↔ p `prefix_of` s.
Proof.
  revert s. induction p as [|a p IH]; intros [|b s]; simpl.
  - split; [intros; apply prefix_nil | done].
  - split; [intros; apply prefix_nil | done].
  - split; [done | intros H; by apply prefix_nil_not in H].
  - rewrite andb_true_iff, N.eqb_eq, IH. split.
    + intros [-> H]. by apply prefix_cons.
    + intros H. split; [by apply prefix_cons_inv_1 in H | by apply prefix_cons_inv_2 in H].
Qed.

Lemma startswith_false p s : startswith p s = false ↔ ¬ p `prefix_of` s.
Proof. rewrite <- startswith_spec. by destruct (startswith p s). Qed.

Lemma occurs_prefix needle s : needle `prefix_of` s → occurs needle s.
Proof. intros [k ->]. by exists [], k. Qed.

Lemma occurs_cons needle c s : occurs needle s → occurs needle (c :: s).
Proof. intros (a & b & ->). by exists (c :: a), b. Qed.

Lemma occurs_cons_inv needle c s :
  occurs needle (c :: s) → needle `prefix_of` (c :: s) ∨ occurs needle s.
Proof.
  intros ([|x a] & b & E); simpl in E.
  - left. by exists b.
  - right. injection E as -> ->. by exists a, b.
Qed.

Lemma occurs_app_l needle s t : occurs needle s → occurs needle (s ++ t).
Proof. intros (a & b & ->). exists a, (b ++ t). by rewrite <- !(assoc_L (++)). Qed.

Lemma occurs_app_r needle s t : occurs needle t → occurs needle (s ++ t).
Proof. intros (a & b & ->). exists (s ++ a), b. by rewrite <- !(assoc_L (++)). Qed.

Lemma occurs_refl s : occurs s s.
Proof. exists [], []. by rewrite app_nil_r. Qed.

Lemma occurs_trans a b c : occurs a b → occurs b c → occurs a c.
Proof.
  intros (x & y & ->) (x' & y' & ->).
  exists (x' ++ x), (y ++ y'). by rewrite <- !(assoc_L (++)).
Qed.

Lemma occurs_elem_of needle s c : occurs needle s → c ∈ needle → c ∈ s.
Proof. intros (a & b & ->) H. rewrite !elem_of_app. auto. Qed.

Lemma occurs_length needle s : occurs needle s → (length needle ≤ length s)%nat.
Proof. intros (a & b & ->). rewrite !length_app. lia. Qed.

Lemma contains_spec needle s : contains needle s = true ↔ occurs needle s.
Proof.
  induction s as [|c s IH]; simpl.
  - rewrite orb_false_r, startswith_spec. split; [apply occurs_prefix|].
    intros (a & b & E). symmetry in E.
    apply app_eq_nil in E as [-> E]. apply app_eq_nil in E as [-> _]. done.
  - rewrite orb_true_iff, startswith_spec, IH. split.
    + intros [H|H]; [by apply occurs_prefix | by apply occurs_cons].
    + apply occurs_cons_inv.
Qed.

Lemma contains_false needle s : contains needle s = false ↔ ¬ occurs needle s.
Proof. rewrite <- contains_spec. by destruct (contains needle s). Qed.

#[global] Instance occurs_dec needle s : Decision (occurs needle s).
Proof.
  destruct (contains needle s) eqn:E.
  - left. by apply contains_spec.
  - right. by apply contains_false.
Defined.

(** ** [str.replace] *)

Lemma replace_go_skip old new k s :
  replace_go old new k s = replace_go old new 0 (drop k s).
Proof.
  revert k. induction s as [|c s IH]; intros [|k]; simpl; done.
Qed.

Lemma replace_go_cons old new c s :
  replace_go old new 0 (c :: s) =
  if startswith old (c :: s)
  then new ++ replace_go old new (pred (length old)) s
  else c :: replace_go old new 0 s.
Proof. done. Qed.

Lemma replace_nil old new : old ≠ [] → replace old new [] = [].
Proof. by destruct old. Qed.

Lemma replace_match old new t :
  old ≠ [] → replace old new (old ++ t) = new ++ replace old new t.
Proof.
  destruct old as [|o old]; [done|]. intros _.
  unfold replace. rewrite <- app_comm_cons, replace_go_cons.
  assert (startswith (o :: old) (o :: old ++ t) = true) as ->.
  { apply startswith_spec. by exists t. }
  rewrite replace_go_skip. simpl. by rewrite drop_app_length.
Qed.

Lemma replace_nomatch old new c s :
  old ≠ [] → ¬ old `prefix_of` (c :: s) →
  replace old new (c :: s) = c :: replace old new s.
Proof.
  destruct old as [|o old]; [done|]. intros _ H.
  apply startswith_false in H. unfold replace.
  by rewrite replace_go_cons, H.
Qed.

(** Induction along the scan of [replace]. *)
Lemma replace_ind old new (P : str → str → Prop) :
  old ≠ [] →
  P [] [] →
  (∀ t r, P t r → P (old ++ t) (new ++ r)) →
  (∀ c s r, ¬ old `prefix_of` (c :: s) → P s r → P (c :: s) (c :: r)) →
  ∀ s, P s (replace old new s).
Proof.
  intros Hold Hnil Hmatch Hstep s.
  remember (length s) as n eqn:Hn. revert s Hn.
  induction n as [n IH] using lt_wf_ind. intros s Hn.
  destruct s as [|c s].
  - by rewrite replace_nil.
  - destruct (decide (old `prefix_of` (c :: s))) as [[t E]|Hno].
    + rewrite E, replace_match by done. apply Hmatch.
      apply (IH (length t)); [|done].
      subst n. rewrite E, length_app. destruct old; [done|]. simpl. lia.
    + rewrite replace_nomatch by done. apply Hstep; [done|].
      apply (IH (length s)); [|done]. subst n. simpl. lia.
Qed.

Lemma replace_no_occ old new s : ¬ occurs old s → replace old new s = s.
Proof.
  destruct (decide (old = [])) as [->|Hold].
  { intros []. by exists [], s. }
  revert s. apply (replace_ind old new (λ s r, ¬ occurs old s → r = s)); [done..| |].
  - intros t r _ []. by apply occurs_prefix; exists t.
  - intros c s r _ IH H. f_equal. apply IH. intros ?. by apply H, occurs_cons.
Qed.

Lemma replace_absent old new s c : c ∈ old → c ∉ s → replace old new s = s.
Proof.
  intros Hc Hs. apply replace_no_occ. intros H. apply Hs. by eapply occurs_elem_of.
Qed.

Lemma replace_same_or_new old new s :
  old ≠ [] → replace old new s = s ∨ occurs new (replace old new s).
Proof.
  intros Hold. revert s.
  apply (replace_ind old new (λ s r, r = s ∨ occurs new r)); [done| | |].
  - by left.
  - intros t r _. right. by apply occurs_prefix; exists r.
  - intros c s r _ [->|H]; [by left | right; by apply occurs_cons].
Qed.

Lemma replace_not_elem old new s c :
  old ≠ [] → c ∉ s → c ∉ new → c ∉ replace old new s.
Proof.
  intros Hold Hs Hnew. revert s Hs.
  apply (replace_ind old new (λ s r, c ∉ s → c ∉ r)); [done| | |].
  - done.
  - intros t r IH H. rewrite elem_of_app in *. intros [?|?]; [done|].
    apply IH; [|done]. intros ?. apply H. by right.
  - intros x s r _ IH H. rewrite elem_of_cons in *. intros [?|?]; [auto|].
    apply IH; [|done]. intros ?. apply H. by right.
Qed.

(** ** [split] and [join] *)

Lemma split_nonempty sep s : split sep s ≠ [].
Proof.
  destruct s as [|c s]; simpl; [done|].
  destruct (c =? sep); [done|]. by destruct (split sep s).
Qed.

Lemma split_no_sep sep s : sep ∉ s → split sep s = [s].
Proof.
  induction s as [|c s IH]; simpl; [done|].
  rewrite not_elem_of_cons. intros [Hc Hs].
  destruct (N.eqb_spec c sep); [done|]. by rewrite IH.
Qed.

Lemma split_app_sep sep a b :
  sep ∉ a → split sep (a ++ sep :: b) = a :: split sep b.
Proof.
  induction a as [|c a IH]; simpl.
  - intros _. by rewrite N.eqb_refl.
  - rewrite not_elem_of_cons. intros [Hc Ha].
    destruct (N.eqb_spec c sep); [done|]. by rewrite IH.
Qed.

Lemma split_lines_no_sep sep s : Forall (λ l, sep ∉ l) (split sep s).
Proof.
  induction s as [|c s IH]; simpl.
  - repeat constructor. by apply not_elem_of_nil.
  - destruct (N.eqb_spec c sep) as [->|Hc].
    + constructor; [apply not_elem_of_nil | done].
    + destruct (split sep s) as [|l ls]; [repeat constructor|].
      * rewrite list_elem_of_singleton. congruence.
      * inversion_clear IH. constructor; [|done].
        rewrite not_elem_of_cons. split; [congruence | done].
Qed.

Lemma join_cons sep l ls :
  ls ≠ [] → join sep (l :: ls) = l ++ sep ++ join sep ls.
Proof. by destruct ls. Qed.

Lemma join_split sep s : join [sep] (split sep s) = s.
Proof.
  induction s as [|c s IH]; simpl; [done|].
  destruct (N.eqb_spec c sep) as [->|Hc].
  - pose proof (split_nonempty sep s).
    destruct (split sep s) eqn:E; [done|]. by rewrite <- IH.
  - pose proof (split_nonempty sep s).
    destruct (split sep s) as [|l [|l' ls]] eqn:E; [done| |].
    + simpl in *. by rewrite IH.
    + rewrite <- IH. done.
Qed.

Lemma split_join sep ls :
  ls ≠ [] → Forall (λ l, sep ∉ l) ls → split sep (join [sep] ls) = ls.
Proof.
  induction ls as [|l ls IH]; [done|]. intros _ H.
  inversion_clear H as [|?? Hl Hls].
  destruct ls as [|l' ls].
  - simpl. by apply split_no_sep.
  - rewrite join_cons by done. simpl app.
    rewrite split_app_sep by done. f_equal. by apply IH.
Qed.

Lemma sep_cases (sep : N) (s : str) :
  sep ∉ s ∨ ∃ a b, s = a ++ sep :: b ∧ sep ∉ a.
Proof.
  destruct (decide (sep ∈ s)) as [H|H]; [right | by left].
  by apply list_elem_of_split_l.
Qed.

Lemma prefix_app_sep (old a : str) sep b :
  sep ∉ old → old `prefix_of` (a ++ sep :: b) → old `prefix_of` a.
Proof.
  revert a. induction old as [|o old IH]; intros a Hsep H.
  - apply prefix_nil.
  - apply not_elem_of_cons in Hsep as [Ho Hold].
    destruct a as [|x a]; simpl in H.
    + by apply prefix_cons_inv_1 in H.
    + pose proof (prefix_cons_inv_1 _ _ _ _ H) as ->.
      apply prefix_cons, IH; [done|]. by apply prefix_cons_inv_2 in H.
Qed.

Lemma replace_app_sep old new sep a b :
  old ≠ [] → sep ∉ old →
  replace old new (a ++ sep :: b) = replace old new a ++ sep :: replace old new b.
Proof.
  intros Hold Hsep. revert a.
  apply (replace_ind old new
           (λ a r, replace old new (a ++ sep :: b) = r ++ sep :: replace old new b));
    [done| | |].
  - simpl. apply replace_nomatch; [done|].
    intros H. apply (prefix_app_sep _ []) in H; [|done].
    apply prefix_nil_inv in H. done.
  - intros t r IH. by rewrite <- !(assoc_L (++)), replace_match, IH.
  - intros c s r Hno IH. simpl. rewrite replace_nomatch, IH; [done..|].
    intros H. apply Hno. by apply (prefix_app_sep _ (c :: s)) in H.
Qed.

Lemma split_replace old new sep s :
  old ≠ [] → sep ∉ old → sep ∉ new →
  split sep (replace old new s) = replace old new <$> split sep s.
Proof.
  intros Hold Ho Hn.
  remember (length s) as n eqn:Hlen. revert s Hlen.
  induction n as [n IH] using lt_wf_ind. intros s Hlen.
  destruct (sep_cases sep s) as [H|(a & b & -> & Ha)].
  - rewrite (split_no_sep _ s) by done. simpl.
    apply split_no_sep. by apply replace_not_elem.
  - rewrite replace_app_sep, !split_app_sep by (done || by apply replace_not_elem).
    simpl. f_equal. apply (IH (length b)); [|done].
    subst n. rewrite length_app. simpl. lia.
Qed.

Lemma occurs_line sep l s : l ∈ split sep s → occurs l s.
Proof.
  remember (length s) as n eqn:Hlen. revert s Hlen.
  induction n as [n IH] using lt_wf_ind. intros s Hlen.
  destruct (sep_cases sep s) as [H|(a & b & -> & Ha)].
  - rewrite split_no_sep by done. rewrite list_elem_of_singleton. intros ->.
    apply occurs_refl.
  - rewrite split_app_sep by done. rewrite elem_of_cons. intros [->|H].
    + apply occurs_app_l, occurs_refl.
    + apply occurs_app_r, occurs_cons. apply (IH (length b)); [|done..].
      subst n. rewrite length_app. simpl. lia.
Qed.

Lemma occurs_join sep (needle : str) ls :
  needle ≠ [] → sep ∉ needle → occurs needle (join [sep] ls) →
  ∃ l, l ∈ ls ∧ occurs needle l.
Proof.
  intros Hne Hsep. induction ls as [|l ls IH]; simpl.
  - intros (a & b & E). symmetry in E.
    apply app_eq_nil in E as [_ E]. apply app_eq_nil in E as [E _]. done.
  - destruct ls as [|l' ls].
    + intros H. exists l. split; [apply list_elem_of_here | done].
    + remember (l' :: ls) as ls' eqn:E. simpl.
      intros H.
      assert (occurs needle l ∨ occurs needle (join [sep] ls')) as [Hl|Hr].
      { clear IH E. generalize dependent (join [sep] ls'). intros t.
        induction l as [|c l IHl]; simpl.
        - intros H. apply occurs_cons_inv in H as [H|H]; [|by right].
          apply (prefix_app_sep _ []) in H; [|done].
          by apply prefix_nil_inv in H.
        - intros H. apply occurs_cons_inv in H as [H|H].
          + left. apply occurs_prefix. by apply (prefix_app_sep _ (c :: l)) in H.
          + destruct (IHl H) as [?|?]; [left; by apply occurs_cons | by right]. }
      * exists l. split; [apply list_elem_of_here | done].
      * destruct (IH Hr) as (x & Hx & Ho). exists x. split; [by apply list_elem_of_further | done].
Qed.

(** ** Files *)

Lemma read_text_holds w p c : holds w p c → read_text p w = (Ok c, w).
Proof. intros (f & Hf & Hr & Hd). unfold read_text. by rewrite Hf, Hr, Hd. Qed.

Lemma read_text_inv p w r w' :
  read_text p w = (r, w') →
  w' = w ∧ ((∃ c, r = Ok c ∧ holds w p c) ∨ (∃ e, r = Raise e)).
Proof.
  unfold read_text, holds. intros H.
  destruct (files w !! p) as [f|] eqn:Hf; [|injection H as <- <-; eauto].
  destruct (readable f) eqn:Hr; [|injection H as <- <-; eauto].
  destruct (data f) as [c|] eqn:Hd; injection H as <- <-; [|eauto].
  split; [done|]. left. exists c. split; [done|]. by exists f.
Qed.

Lemma bind_ok {A B} (m : M A) (k : A → M B) w a w' :
  m w = (Ok a, w') → (m ≫= k) w = k a w'.
Proof. unfold mbind, M_bind. by intros ->. Qed.

Lemma bind_raise {A B} (m : M A) (k : A → M B) w e w' :
  m w = (Raise e, w') → (m ≫= k) w = (Raise e, w').
Proof. unfold mbind, M_bind. by intros ->. Qed.

Lemma write_if_changed_same p c w : write_if_changed p c c w = (Ok false, w).
Proof. unfold write_if_changed. by rewrite bool_decide_eq_false_2 by auto. Qed.

Lemma write_if_changed_diff p c c' w f :
  c' ≠ c → files w !! p = Some f → writable f = true →
  write_if_changed p c c' w =
  (Ok true, World (<[p := File (Some c') (readable f) true]> (files w))
                  (stdout w ++ [Optimized p])).
Proof.
  intros Hne Hf Hw. unfold write_if_changed. rewrite bool_decide_eq_true_2 by done.
  unfold mbind, M_bind, write_text. by rewrite Hf, Hw.
Qed.

Lemma write_if_changed_denied p c c' w f :
  c' ≠ c → files w !! p = Some f → writable f = false →
  write_if_changed p c c' w = (Raise (PermissionError p), w).
Proof.
  intros Hne Hf Hw. unfold write_if_changed. rewrite bool_decide_eq_true_2 by done.
  unfold mbind, M_bind, write_text. by rewrite Hf, Hw.
Qed.

(** The three ways [write_if_changed] ends for a file that was read. *)
Lemma write_if_changed_cases p c c' w :
  holds w p c →
  (c' = c ∧ write_if_changed p c c' w = (Ok false, w))
  ∨ (c' ≠ c ∧ write_if_changed p c c' w = (Raise (PermissionError p), w))
  ∨ (c' ≠ c ∧ ∃ w', write_if_changed p c c' w = (Ok true, w')
       ∧ text_at w' p = Some c'
       ∧ (∀ q, q ≠ p → files w' !! q = files w !! q)
       ∧ stdout w' = stdout w ++ [Optimized p]).
Proof.
  intros (f & Hf & Hr & Hd).
  destruct (decide (c' = c)) as [->|Hne].
  { left. split; [done|]. apply write_if_changed_same. }
  right. destruct (writable f) eqn:Hw.
  - right. split; [done|]. eexists. split; [by eapply write_if_changed_diff|].
    unfold text_at. simpl. rewrite lookup_insert_eq. split; [done|]. split; [|done].
    intros q Hq. by rewrite lookup_insert_ne.
  - left. split; [done|]. by eapply write_if_changed_denied.
Qed.

Lemma Simple_optimize_file_holds w p c :
  holds w p c →
  Simple.optimize_file p w =
  write_if_changed p c
    (Simple.apply_replacements Simple.replacements (Simple.add_import c)) w.
Proof.
  intros H. unfold Simple.optimize_file.
  by rewrite (bind_ok _ _ _ _ _ (read_text_holds _ _ _ H)).
Qed.

(** ** The regular-expression script stops at its eleventh rule *)

Lemma sub_raise pattern repl s e :
  Re.parse_template (Re.groups pattern) repl = Raise e →
  Re.sub pattern repl s = Raise e.
Proof. unfold Re.sub. by intros ->. Qed.

Lemma sub_ok pattern repl s t :
  Re.parse_template (Re.groups pattern) repl = Ok t →
  Re.sub pattern repl s = Ok (Re.sub_go pattern t 0 s).
Proof. unfold Re.sub. by intros ->. Qed.

Lemma apply_replacements_refused rules e s :
  first_refused rules = Some e → Regex.apply_replacements rules s = Raise e.
Proof.
  revert s. induction rules as [|[pattern repl] rules IH]; intros s; simpl; [done|].
  unfold Re.sub.
  destruct (Re.parse_template (Re.groups pattern) repl); [apply IH | congruence].
Qed.

Lemma apply_replacements_accepted rules s :
  first_refused rules = None → ∃ s', Regex.apply_replacements rules s = Ok s'.
Proof.
  revert s. induction rules as [|[pattern repl] rules IH]; intros s; simpl; [eauto|].
  unfold Re.sub.
  destruct (Re.parse_template (Re.groups pattern) repl); [apply IH | congruence].
Qed.

Lemma Regex_rules_raise s :
  Regex.apply_replacements Regex.replacements s = Raise (ReError (InvalidGroupReference 1)).
Proof. apply apply_replacements_refused. by vm_compute. Qed.

Lemma Regex_optimize_file_holds w p c :
  holds w p c →
  Regex.optimize_file p w = (Raise (ReError (InvalidGroupReference 1)), w).
Proof.
  intros H. unfold Regex.optimize_file.
  rewrite (bind_ok _ _ _ _ _ (read_text_holds _ _ _ H)).
  apply bind_raise. unfold Regex.lift. by rewrite Regex_rules_raise.
Qed.

Lemma Regex_optimize_file_raises p w : ∃ e, Regex.optimize_file p w = (Raise e, w).
Proof.
  destruct (read_text p w) as [r w'] eqn:E.
  destruct (read_text_inv _ _ _ _ E) as [-> [(c & -> & H)|(e & ->)]].
  - eexists. by eapply Regex_optimize_file_holds.
  - exists e. unfold Regex.optimize_file. by apply bind_raise.
Qed.

(** ** What a call of [optimize_file] can do to the world *)

Lemma optimize_file_cases v p w :
  (∃ e, optimize_file v p w = (Raise e, w))
  ∨ optimize_file v p w = (Ok false, w)
  ∨ (∃ w', optimize_file v p w = (Ok true, w')
       ∧ (∀ q, q ≠ p → files w' !! q = files w !! q)
       ∧ stdout w' = stdout w ++ [Optimized p]).
Proof.
  destruct v; simpl.
  - destruct (read_text p w) as [r w'] eqn:E.
    destruct (read_text_inv _ _ _ _ E) as [-> [(c & -> & H)|(e & ->)]].
    + rewrite (Simple_optimize_file_holds _ _ _ H).
      destruct (write_if_changed_cases p c
                  (Simple.apply_replacements Simple.replacements (Simple.add_import c))
                  w H) as [[_ ->]|[[_ ->]|[_ (w' & -> & _ & ? & ?)]]]; eauto 10.
    + left. exists e. unfold Simple.optimize_file. by apply bind_raise.
  - left. apply Regex_optimize_file_raises.
Qed.

Lemma for_each_cons opt p rest n w :
  for_each opt (p :: rest) n w =
  match opt p w with
  | (Ok modified, w') => for_each opt rest (if modified then S n else n) w'
  | (Raise e, w') => (Raise e, w')
  end.
Proof. done. Qed.




(** ** The import step of the literal script *)

Lemma last_index_Some {A} (P : A → bool) l k :
  last_index P l = Some k →
  ∃ x, l !! k = Some x ∧ P x = true
       ∧ ∀ j y, (k < j)%nat → l !! j = Some y → P y = false.
Proof.
  revert k. induction l as [|x l IH]; intros k; simpl; [done|].
  destruct (last_index P l) as [k'|] eqn:E.
  - intros [= <-]. destruct (IH k' eq_refl) as (y & Hy & HP & Hlast).
    exists y. split; [done|]. split; [done|].
    intros [|j] z Hj; [lia|]. simpl. apply Hlast. lia.
  - destruct (P x) eqn:HP; [|done]. intros [= <-].
    exists x. split; [done|]. split; [done|].
    intros [|j] z Hj; [lia|]. simpl. intros Hz.
    clear IH. revert j z Hz Hj E. induction l as [|a l IHl]; intros j z Hz _; [done|].
    simpl. destruct (last_index P l) eqn:E'; [done|].
    destruct (P a) eqn:Ha; [done|]. intros _.
    destruct j as [|j]; simpl in Hz; [congruence|].
    apply (IHl j z Hz); [lia | done].
Qed.

Lemma last_index_None {A} (P : A → bool) l :
  last_index P l = None → ∀ x, x ∈ l → P x = false.
Proof.
  induction l as [|a l IH]; simpl; [by intros _ x ?%elem_of_nil|].
  destruct (last_index P l) eqn:E; [done|].
  destruct (P a) eqn:Ha; [done|]. intros _ x [->|H]%elem_of_cons; auto.
Qed.

Lemma last_index_lt {A} (P : A → bool) l k :
  last_index P l = Some k → (k < length l)%nat.
Proof.
  intros (x & Hx & _)%last_index_Some. by eapply lookup_lt_Some.
Qed.

Lemma scan_imports_spec i lines idx :
  Simple.scan_imports i lines idx =
  match last_index is_import_line lines with
  | Some k => Z.of_nat (i + k)
  | None => idx
  end.
Proof.
  revert i idx. induction lines as [|line lines IH]; intros i idx;
    cbn [Simple.scan_imports last_index]; [done|].
  rewrite IH. destruct (last_index is_import_line lines) as [k|].
  - lia.
  - unfold is_import_line. destruct (startswith _ _); [lia | done].
Qed.

Lemma Simple_add_import_spec c :
  Simple.add_import c =
  if negb (contains target_import c) && contains print_marker c then
    match last_index is_import_line (split newline c) with
    | Some k => join [newline] (list_insert_at (S k) target_import (split newline c))
    | None => c
    end
  else c.
Proof.
  unfold Simple.add_import. destruct (_ && _); [|done].
  cbv zeta. rewrite scan_imports_spec.
  destruct (last_index is_import_line (split newline c)) as [k|]; [|done].
  simpl Nat.add. rewrite (proj2 (Z.leb_le 0 (Z.of_nat k))) by lia.
  do 2 f_equal. lia.
Qed.



Lemma length_list_insert_at {A} i (x : A) l :
  length (list_insert_at i x l) = S (length l).
Proof.
  unfold list_insert_at. rewrite length_app. simpl.
  rewrite length_take, length_drop. lia.
Qed.

(** ** The rules of the literal script act line by line *)

Lemma rule_ok_spec rule :
  Is_true (rule_ok rule) → fst rule ≠ [] ∧ (newline ∉ fst rule) ∧ (newline ∉ snd rule).
Proof.
  unfold rule_ok. rewrite !andb_True, !bool_decide_spec. tauto.
Qed.

Lemma Simple_rules_ok : Forall (λ rule, rule_ok rule) Simple.replacements.
Proof. apply forallb_True. by vm_compute. Qed.

Lemma apply_replacements_lines rules s :
  Forall (λ rule, rule_ok rule) rules →
  split newline (Simple.apply_replacements rules s) =
  Simple.apply_replacements rules <$> split newline s.
Proof.
  intros H. revert s. induction H as [|[old new] rules Hr _ IH]; intros s; simpl.
  - by rewrite list_fmap_id.
  - apply rule_ok_spec in Hr as (? & ? & ?). simpl in *.
    rewrite IH, split_replace by done. by rewrite <- list_fmap_compose.
Qed.

Lemma apply_replacements_app rules1 rules2 s :
  Simple.apply_replacements (rules1 ++ rules2) s =
  Simple.apply_replacements rules2 (Simple.apply_replacements rules1 s).
Proof.
  revert s. induction rules1 as [|[old new] rules1 IH]; intros s; simpl; [done|].
  apply IH.
Qed.

Lemma Simple_rules_paren : Forall (λ rule, has_paren rule) Simple.replacements.
Proof. apply forallb_True. by vm_compute. Qed.

(** Text without a parenthesis is neither changed nor produced by rules
    whose two sides hold one. *)
Lemma apply_replacements_no_paren rules l :
  Forall (λ rule, has_paren rule) rules →
  40 ∉ Simple.apply_replacements rules l → Simple.apply_replacements rules l = l.
Proof.
  intros H. revert l. induction H as [|[old new] rules Hr _ IH]; intros l; simpl; [done|].
  unfold has_paren in Hr. rewrite !andb_True, !bool_decide_spec in Hr.
  destruct Hr as [[Ho Hn] Hne]. simpl in *. intros Hl.
  rewrite (IH _ Hl) in Hl |- *.
  destruct (replace_same_or_new old new l Hne) as [E|E]; [done|].
  destruct Hl. by eapply occurs_elem_of.
Qed.

Lemma apply_replacements_keep rules l :
  Forall (λ rule, has_paren rule) rules →
  40 ∉ l → Simple.apply_replacements rules l = l.
Proof.
  intros H. revert l. induction H as [|[old new] rules Hr _ IH]; intros l; simpl; [done|].
  unfold has_paren in Hr. rewrite !andb_True, !bool_decide_spec in Hr.
  destruct Hr as [[Ho Hn] Hne]. simpl in *. intros Hl.
  rewrite (replace_absent old new l 40) by done. by apply IH.
Qed.

Lemma target_import_no_paren : 40 ∉ target_import.
Proof. apply (bool_decide_unpack _). by vm_compute. Qed.

Lemma apply_replacements_target l :
  Simple.apply_replacements Simple.replacements l = target_import ↔ l = target_import.
Proof.
  split.
  - intros H. rewrite <- H. symmetry.
    apply apply_replacements_no_paren; [apply Simple_rules_paren|].
    rewrite H. apply target_import_no_paren.
  - intros ->. apply apply_replacements_keep;
      [apply Simple_rules_paren | apply target_import_no_paren].
Qed.

Lemma count_fmap_iff (f : str → str) (x : str) ls :
  (∀ l, f l = x ↔ l = x) →
  length (filter (λ l, l = x) (f <$> ls)) = length (filter (λ l, l = x) ls).
Proof.
  intros Hf. induction ls as [|l ls IH]; [done|].
  rewrite fmap_cons, !filter_cons.
  destruct (decide (f l = x)) as [E|E], (decide (l = x)) as [E'|E']; simpl;
    [by rewrite IH | destruct E'; by apply Hf | destruct E; by apply Hf | done].
Qed.

Lemma count_import_lines_rules c :
  count_import_lines (Simple.apply_replacements Simple.replacements c)
  = count_import_lines c.
Proof.
  unfold count_import_lines.
  rewrite apply_replacements_lines by apply Simple_rules_ok.
  apply count_fmap_iff, apply_replacements_target.
Qed.

Lemma holds_text_at w p c : holds w p c → text_at w p = Some c.
Proof. intros (f & Hf & _ & Hd). unfold text_at. by rewrite Hf. Qed.

(** C5: no duplicate import.  For a readable file that already contains
    [import PerformanceLogger] and the marker [print(], the import step of
    either script returns the content as it is; and whatever the run then
    does, the file in the end has as many lines, and as many lines equal
    to the target import, as it had. *)
Theorem no_duplicate_import v p w c :
  holds w p c →
  contains target_import c = true →
  contains print_marker c = true →
  add_import v c = c
  ∧ ∃ r w' c', optimize_file v p w = (r, w')
      ∧ text_at w' p = Some c'
      ∧ count_import_lines c' = count_import_lines c
      ∧ length (split newline c') = length (split newline c).
Proof.
  intros H Htarget Hmarker. split.
  { destruct v; simpl; unfold Simple.add_import, Regex.add_import;
      by rewrite Htarget. }
  pose proof (holds_text_at _ _ _ H) as Htext.
  destruct v; simpl.
  - rewrite (Simple_optimize_file_holds _ _ _ H).
    assert (Simple.add_import c = c) as ->.
    { unfold Simple.add_import. by rewrite Htarget. }
    destruct (write_if_changed_cases p c
                (Simple.apply_replacements Simple.replacements c) w H)
      as [[_ ->]|[[_ ->]|[_ (w' & -> & Hw' & _)]]]; [by eauto 10..|].
    do 3 eexists. split; [done|]. split; [done|].
    split; [apply count_import_lines_rules|].
    rewrite apply_replacements_lines by apply Simple_rules_ok.
    apply length_fmap.
  - rewrite (Regex_optimize_file_holds _ _ _ H). eauto 10.
Qed.

Lemma target_import_no_newline : newline ∉ target_import.
Proof. apply (bool_decide_unpack _). by vm_compute. Qed.

Lemma Forall_list_insert_at {A} (P : A → Prop) i x l :
  P x → Forall P l → Forall P (list_insert_at i x l).
Proof.
  intros Hx Hl. unfold list_insert_at. apply Forall_app. split.
  - by apply Forall_take.
  - constructor; [done|]. by apply Forall_drop.
Qed.

(** The import step seen on the lines of the file. *)
Lemma Simple_add_import_lines c :
  ∃ lines', Simple.add_import c = join [newline] lines'
    ∧ Forall (λ l, newline ∉ l) lines'
    ∧ (lines' = split newline c
       ∨ ∃ k, last_index is_import_line (split newline c) = Some k
              ∧ contains target_import c = false
              ∧ contains print_marker c = true
              ∧ lines' = list_insert_at (S k) target_import (split newline c)).
Proof.
  rewrite Simple_add_import_spec.
  destruct (contains target_import c) eqn:Ht; simpl;
    [exists (split newline c); rewrite join_split;
     split; [done|]; split; [apply split_lines_no_sep | by left]|].
  destruct (contains print_marker c) eqn:Hm;
    [|exists (split newline c); rewrite join_split;
      split; [done|]; split; [apply split_lines_no_sep | by left]].
  destruct (last_index is_import_line (split newline c)) as [k|] eqn:Hk;
    [|exists (split newline c); rewrite join_split;
      split; [done|]; split; [apply split_lines_no_sep | by left]].
  eexists. split; [done|]. split.
  - apply Forall_list_insert_at;
      [apply target_import_no_newline | apply split_lines_no_sep].
  - right. by exists k.
Qed.

Lemma list_insert_at_nonempty {A} i (x : A) l : list_insert_at i x l ≠ [].
Proof.
  intros H. apply (f_equal length) in H.
  rewrite length_list_insert_at in H. done.
Qed.





Lemma holds_one_file p c : holds (one_file p c) p c.
Proof. eexists. split; [apply lookup_singleton_eq|done]. Qed.

Lemma Regex_one_file p c :
  Regex.optimize_file p (one_file p c) = (Raise invalid_group_reference, one_file p c).
Proof. apply Regex_optimize_file_holds with c, holds_one_file. Qed.

Lemma Simple_one_file_same p c :
  Simple.apply_replacements Simple.replacements (Simple.add_import c) = c →
  Simple.optimize_file p (one_file p c) = (Ok false, one_file p c).
Proof.
  intros E. rewrite (Simple_optimize_file_holds _ _ _ (holds_one_file p c)), E.
  apply write_if_changed_same.
Qed.

Lemma Simple_one_file_diff p c c' :
  Simple.apply_replacements Simple.replacements (Simple.add_import c) = c' →
  c' ≠ c →
  Simple.optimize_file p (one_file p c)
  = (Ok true, World {[ p := File (Some c') true true ]} [Optimized p]).
Proof.
  intros E Hne. rewrite (Simple_optimize_file_holds _ _ _ (holds_one_file p c)), E.
  rewrite (write_if_changed_diff p c c' _ (File (Some c) true true) Hne);
    [|apply lookup_singleton_eq|done].
  unfold one_file. cbn [files stdout readable app]. by rewrite insert_singleton_eq.
Qed.

(** C1, evaluated on a file without the marker [print(]: the literal
    script returns [False] and leaves the world as it is, as the claim
    says; the regular-expression script leaves the file as it is but
    raises [re.error] instead of returning [False]. *)
Theorem no_marker_regex_raises :
  contains print_marker no_print_swift = false
  ∧ Regex.optimize_file "A.swift" (one_file "A.swift" no_print_swift)
    = (Raise invalid_group_reference, one_file "A.swift" no_print_swift)
  ∧ Simple.optimize_file "A.swift" (one_file "A.swift" no_print_swift)
    = (Ok false, one_file "A.swift" no_print_swift).
Proof.
  split; [by vm_compute|]. split; [apply Regex_one_file|].
  apply Simple_one_file_same. by vm_compute.
Qed.

(** C2, evaluated: the literal script run twice returns [True], then
    [False] with the file unchanged by the second run; the
    regular-expression script raises in its first run, so that there is
    no second run and no output to compare. *)
Theorem first_run_regex_raises :
  (Regex.optimize_file "A.swift" ;; Regex.optimize_file "A.swift")
    (one_file "A.swift" journal_swift)
  = (Raise invalid_group_reference, one_file "A.swift" journal_swift)
  ∧ ∃ w1, Simple.optimize_file "A.swift" (one_file "A.swift" journal_swift) = (Ok true, w1)
      ∧ Simple.optimize_file "A.swift" w1 = (Ok false, w1).
Proof.
  split; [apply bind_raise, Regex_one_file|].
  eexists. split.
  - apply Simple_one_file_diff; [reflexivity|]. by vm_compute.
  - set (c1 := Simple.apply_replacements _ _).
    assert (holds (World {[ "A.swift"%string := File (Some c1) true true ]}
                         [Optimized "A.swift"]) "A.swift" c1) as H
      by (eexists; split; [apply lookup_singleton_eq|done]).
    rewrite (Simple_optimize_file_holds _ _ _ H).
    replace (Simple.apply_replacements Simple.replacements (Simple.add_import c1)) with c1
      by (by vm_compute).
    apply write_if_changed_same.
Qed.

(** C4, evaluated: on a file whose last import line occurs twice the
    import step of the regular-expression script inserts the new import
    twice, once after each occurrence, where the literal script inserts it
    once after the last one; and on a file without import line the
    regular-expression script raises instead of applying its rules, where
    the literal script rewrites the print call. *)
Theorem import_step_regex_divergence :
  Regex.add_import two_imports_swift
  = text [py "import Foundation"; target_import;
          py "import Foundation"; target_import; py "print(1)"; []]
  ∧ Simple.add_import two_imports_swift
    = text [py "import Foundation"; py "import Foundation"; target_import;
            py "print(1)"; []]
  ∧ Regex.optimize_file "A.swift" (one_file "A.swift" no_import_swift)
    = (Raise invalid_group_reference, one_file "A.swift" no_import_swift)
  ∧ Simple.optimize_file "A.swift" (one_file "A.swift" no_import_swift)
    = (Ok true, World {[ "A.swift"%string := File (Some (text [saved_log; []])) true true ]}
                      [Optimized "A.swift"]).
Proof.
  split; [by vm_compute|]. split; [by vm_compute|]. split; [apply Regex_one_file|].
  apply Simple_one_file_diff; by vm_compute.
Qed.

(** C6, evaluated: the first ten rules of the regular-expression script
    change the content of the sample file, yet the script neither writes
    it nor returns a boolean: it raises at the eleventh rule. *)
Theorem changed_content_regex_not_written :
  (∃ c', Regex.apply_replacements (take 10 Regex.replacements)
           (Regex.add_import journal_swift) = Ok c' ∧ c' ≠ journal_swift)
  ∧ Regex.optimize_file "A.swift" (one_file "A.swift" journal_swift)
    = (Raise invalid_group_reference, one_file "A.swift" journal_swift).
Proof.
  split; [|apply Regex_one_file].
  eexists. split; [by vm_compute|]. by vm_compute.
Qed.

(** C7, evaluated on a print call that the fifth rule and the eleventh
    rule of the regular-expression script both match: the rules up to the
    tenth give the fifth rule's text, as the claim says of the earlier
    rule, but the whole table raises, so that no output is observed; the
    literal table gives the earlier rule's text. *)
Theorem overlapping_rules_regex_raise :
  Re.findall (fst (Regex.replacements !!! 4%nat)) save_blocked = [save_blocked]
  ∧ Re.findall (fst (Regex.replacements !!! 10%nat)) save_blocked = [save_blocked]
  ∧ Regex.apply_replacements (take 10 Regex.replacements) save_blocked
    = Ok (call "logWarning" (py "Save blocked - operation in progress"))
  ∧ Regex.apply_replacements Regex.replacements save_blocked
    = Raise invalid_group_reference
  ∧ Simple.apply_replacements Simple.replacements save_blocked
    = call "logWarning" (py "Save blocked - operation in progress").
Proof.
  split; [by vm_compute|]. split; [by vm_compute|]. split; [by vm_compute|].
  split; [apply Regex_rules_raise | by vm_compute].
Qed.

(** C10, evaluated on a file with an import line and a print call that
    no rule matches: the literal script inserts the import, rewrites the
    file and returns [True], as the claim says; the regular-expression
    script raises and leaves the file without the import. *)
Theorem import_only_regex_raises :
  Regex.apply_replacements (take 10 Regex.replacements) debug_swift = Ok debug_swift
  ∧ Forall (λ rule, Re.findall (fst rule) debug_swift = []) Regex.replacements
  ∧ Regex.optimize_file "A.swift" (one_file "A.swift" debug_swift)
    = (Raise invalid_group_reference, one_file "A.swift" debug_swift)
  ∧ Simple.optimize_file "A.swift" (one_file "A.swift" debug_swift)
    = (Ok true,
       World {[ "A.swift"%string :=
                  File (Some (text [py "import Foundation"; target_import;
                                    py "print(1)"; []])) true true ]}
             [Optimized "A.swift"]).
Proof.
  split; [by vm_compute|]. split; [apply (bool_decide_unpack _); by vm_compute|].
  split; [apply Regex_one_file|].
  apply Simple_one_file_diff; by vm_compute.
Qed.

(** C3, evaluated on [print("⚠️ Low battery")], which the eleventh rule,
    the first of the general ones, matches and no other rule does: the
    replacement of that rule refers to group 1 of a pattern without
    group, so that [re.sub] does not complete and yields no string, be
    it empty or a placeholder: it raises [re.error], and so does
    [optimize_file] on a file with this line, which it leaves as it
    is. *)
Theorem low_battery_sub_raises :
  Re.findall (Regex.wild e_warning) low_battery = [low_battery]
  ∧ Forall (λ rule, Re.findall (fst rule) low_battery = []) (delete 10%nat Regex.replacements)
  ∧ Regex.replacements !! 10%nat = Some (Regex.wild e_warning, Regex.backref "logWarning")
  ∧ Re.groups (Regex.wild e_warning) = 0%nat
  ∧ (¬ ∃ out, Re.sub (Regex.wild e_warning) (Regex.backref "logWarning") low_battery = Ok out)
  ∧ Re.sub (Regex.wild e_warning) (Regex.backref "logWarning") low_battery
    = Raise invalid_group_reference
  ∧ Regex.optimize_file "A.swift" (one_file "A.swift" low_battery)
    = (Raise invalid_group_reference, one_file "A.swift" low_battery).
Proof.
  split; [by vm_compute|]. split; [apply (bool_decide_unpack _); by vm_compute|].
  split; [done|]. split; [done|]. split; [|split; [by apply sub_raise | apply Regex_one_file]].
  intros [out H]. by vm_compute in H.
Qed.

(** Whatever the input, [re.sub] with any of the seven general rules
    raises [re.error] for the invalid group reference 1, the pattern
    having no group; hence so does the whole table. *)
Lemma wildcard_rules_raise s :
  Forall (λ rule, Re.groups (fst rule) = 0%nat
                  ∧ Re.sub (fst rule) (snd rule) s = Raise invalid_group_reference)
         (drop 10 Regex.replacements)
  ∧ Regex.apply_replacements Regex.replacements s = Raise invalid_group_reference.
Proof.
  split; [|apply Regex_rules_raise].
  repeat constructor; by apply sub_raise.
Qed.

(** ** Instances of the theorems that have hypotheses *)

Lemma no_duplicate_import_witness :
  add_import Literal imported_swift = imported_swift
  ∧ ∃ r w' c',
      optimize_file Literal "A.swift" (one_file "A.swift" imported_swift) = (r, w')
      ∧ text_at w' "A.swift" = Some c'
      ∧ count_import_lines c' = count_import_lines imported_swift
      ∧ length (split newline c') = length (split newline imported_swift).
Proof.
  apply (no_duplicate_import Literal "A.swift" (one_file "A.swift" imported_swift)).
  - exists (File (Some imported_swift) true true). by vm_compute.
  - by vm_compute.
  - by vm_compute.
Defined.



(** ** The literal script, file by file *)

Lemma Simple_rules_marker : Forall (λ rule, has_marker rule) Simple.replacements.
Proof. apply forallb_True. by vm_compute. Qed.

Lemma apply_replacements_absent rules s :
  Forall (λ rule, ¬ occurs (fst rule) s) rules →
  Simple.apply_replacements rules s = s.
Proof.
  induction 1 as [|[old new] rules H _ IH]; [done|].
  cbn [Simple.apply_replacements]. cbn [fst] in H. by rewrite replace_no_occ.
Qed.

Lemma apply_replacements_no_marker s :
  ¬ occurs print_marker s →
  Simple.apply_replacements Simple.replacements s = s.
Proof.
  intros Hs. apply apply_replacements_absent.
  eapply Forall_impl; [apply Simple_rules_marker|].
  intros rule Hm Ho. apply Hs. eapply occurs_trans; [|exact Ho].
  apply contains_spec. by apply Is_true_true.
Qed.

Lemma fmap_list_insert_at {A B} (f : A → B) i x l :
  f <$> list_insert_at i x l = list_insert_at i (f x) (f <$> l).
Proof. unfold list_insert_at. by rewrite fmap_app, fmap_cons, fmap_take, fmap_drop. Qed.

Lemma rewritten_lines c :
  split newline (rewritten c)
  = Simple.apply_replacements Simple.replacements <$> split newline (Simple.add_import c).
Proof. apply apply_replacements_lines, Simple_rules_ok. Qed.

Lemma Simple_add_import_inserted c k :
  contains target_import c = false → contains print_marker c = true →
  last_index is_import_line (split newline c) = Some k →
  split newline (Simple.add_import c)
  = list_insert_at (S k) target_import (split newline c).
Proof.
  intros Ht Hm Hk. rewrite Simple_add_import_spec, Ht, Hm, Hk. cbn [negb andb].
  apply split_join; [apply list_insert_at_nonempty|].
  apply Forall_list_insert_at; [apply target_import_no_newline | apply split_lines_no_sep].
Qed.

Lemma Simple_add_import_changes c k :
  contains target_import c = false → contains print_marker c = true →
  last_index is_import_line (split newline c) = Some k →
  Simple.add_import c ≠ c.
Proof.
  intros Ht Hm Hk E. pose proof (Simple_add_import_inserted c k Ht Hm Hk) as H.
  rewrite E in H. apply (f_equal length) in H.
  rewrite length_list_insert_at in H. lia.
Qed.

Lemma Simple_add_import_kept c :
  contains target_import c = true ∨ contains print_marker c = false
  ∨ last_index is_import_line (split newline c) = None →
  Simple.add_import c = c.
Proof.
  rewrite Simple_add_import_spec.
  intros [-> | [-> | ->]]; [done | by rewrite andb_false_r | by destruct (negb _ && _)].
Qed.

(** X1: A file without the marker [print(]: the literal script returns
    [False] and touches neither the file system nor the console. *)
Theorem Simple_no_marker_untouched p w c :
  holds w p c → contains print_marker c = false →
  Simple.optimize_file p w = (Ok false, w).
Proof.
  intros Hh Hm. rewrite (Simple_optimize_file_holds _ _ _ Hh).
  rewrite Simple_add_import_kept by auto.
  rewrite apply_replacements_no_marker by (by apply contains_false).
  apply write_if_changed_same.
Qed.

(** X2: What [optimize_file] of the literal script does with a readable
    file, in full: nothing when the rewritten content is the original;
    otherwise it replaces the content, prints one line and returns
    [True], or raises [PermissionError], with nothing changed and nothing
    printed, when the file cannot be written. *)
Theorem Simple_write_iff_changed p w f c :
  files w !! p = Some f → readable f = true → data f = Some c →
  Simple.optimize_file p w =
  if bool_decide (rewritten c = c) then (Ok false, w)
  else if writable f then
    (Ok true, World (<[p := File (Some (rewritten c)) true true]> (files w))
                    (stdout w ++ [Optimized p]))
  else (Raise (PermissionError p), w).
Proof.
  intros Hf Hr Hd.
  assert (holds w p c) as Hh by (by exists f).
  rewrite (Simple_optimize_file_holds _ _ _ Hh). fold (rewritten c).
  case_bool_decide as E.
  - rewrite E. apply write_if_changed_same.
  - destruct (writable f) eqn:Hw.
    + rewrite (write_if_changed_diff _ _ _ _ f) by done. by rewrite Hr.
    + by apply write_if_changed_denied with f.
Qed.

(** X3: The import step of the literal script, for a content with the marker
    and without the target import.  If some line is an import line, and
    [k] is the index of the last one, the rewritten content has the lines
    of the original, each with the rules applied, and the target import
    as one more line at index [k + 1].  If no line is an import line,
    nothing is inserted and the rules are applied all the same. *)
Theorem Simple_import_after_last c :
  contains print_marker c = true → contains target_import c = false →
  match last_index is_import_line (split newline c) with
  | Some k =>
      (∃ line, split newline c !! k = Some line ∧ is_import_line line = true)
      ∧ (∀ j line, (k < j)%nat → split newline c !! j = Some line →
                   is_import_line line = false)
      ∧ split newline (rewritten c)
        = list_insert_at (S k) target_import
            (Simple.apply_replacements Simple.replacements <$> split newline c)
  | None =>
      Simple.add_import c = c
      ∧ rewritten c = Simple.apply_replacements Simple.replacements c
  end.
Proof.
  intros Hm Ht. destruct (last_index _ _) as [k|] eqn:Hk.
  - destruct (last_index_Some _ _ _ Hk) as (line & Hl & Hi & Hlast).
    split; [by exists line|]. split; [exact Hlast|].
    rewrite rewritten_lines, (Simple_add_import_inserted c k) by done.
    by rewrite fmap_list_insert_at, (proj2 (apply_replacements_target target_import) eq_refl).
  - unfold rewritten. by rewrite Simple_add_import_kept by auto.
Qed.

(** X4: The literal script works line by line: a line without the marker
    [print(] is kept as it is, and the lines of the rewritten content are
    the lines after the import step with the rules applied to each. *)
Theorem Simple_keeps_other_lines c :
  (∀ line, contains print_marker line = false →
           Simple.apply_replacements Simple.replacements line = line)
  ∧ split newline (rewritten c)
    = Simple.apply_replacements Simple.replacements <$> split newline (Simple.add_import c)
  ∧ (length (split newline c) ≤ length (split newline (rewritten c))
     ≤ S (length (split newline c)))%nat.
Proof.
  split; [intros line H; by apply apply_replacements_no_marker, contains_false|].
  split; [apply rewritten_lines|].
  rewrite rewritten_lines, length_fmap.
  destruct (Simple_add_import_lines c) as (lines' & E & Hnl & Hcases).
  rewrite E, split_join; [|destruct Hcases as [->|(? & _ & _ & _ & ->)];
                           [apply split_nonempty | apply list_insert_at_nonempty] | done].
  destruct Hcases as [->|(k & _ & _ & _ & ->)]; [lia|].
  rewrite length_list_insert_at. lia.
Qed.

(** X5: A file with the marker, without the target import, with an import
    line, and in which no pattern of the table occurs: the literal script
    inserts the import after the last import line, changes no other
    line, writes the file and returns [True]. *)
Theorem Simple_import_only p w f c k :
  files w !! p = Some f → readable f = true → writable f = true → data f = Some c →
  contains print_marker c = true → contains target_import c = false →
  last_index is_import_line (split newline c) = Some k →
  Forall (λ rule, contains (fst rule) c = false) Simple.replacements →
  rewritten c = join [newline] (list_insert_at (S k) target_import (split newline c))
  ∧ Simple.optimize_file p w
    = (Ok true, World (<[p := File (Some (rewritten c)) true true]> (files w))
                      (stdout w ++ [Optimized p])).
Proof.
  intros Hf Hr Hw Hd Hm Ht Hk Hrules.
  assert (rewritten c = Simple.add_import c) as E.
  { rewrite <- (join_split newline (rewritten c)), rewritten_lines.
    rewrite <- (join_split newline (Simple.add_import c)) at 2. f_equal.
    rewrite (Simple_add_import_inserted c k) by done.
    rewrite <- (list_fmap_id (list_insert_at _ _ _)) at 2.
    apply Forall_fmap_ext_1, Forall_list_insert_at.
    - by apply apply_replacements_target.
    - apply Forall_forall. intros line Hline. apply apply_replacements_absent.
      eapply Forall_impl; [exact Hrules|]. intros rule Hrule Ho. cbn beta in Hrule.
      apply contains_false in Hrule. apply Hrule.
      eapply occurs_trans; [exact Ho|]. by eapply occurs_line. }
  split.
  - rewrite E, <- (Simple_add_import_inserted c k) by done. by rewrite join_split.
  - assert (holds w p c) as Hh by (by exists f).
    rewrite (Simple_optimize_file_holds _ _ _ Hh). fold (rewritten c).
    rewrite (write_if_changed_diff _ _ _ _ f), Hr; [done| |done..].
    rewrite E. by eapply Simple_add_import_changes.
Qed.

(** ** Whole runs *)

Lemma same_mode_refl f : same_mode f f.
Proof. by destruct f. Qed.

Lemma same_mode_trans f g h : same_mode f g → same_mode g h → same_mode f h.
Proof.
  destruct f, g, h; simpl; try done. intros [-> ->] [-> ->]. done.
Qed.

Lemma same_shape_refl w : same_shape w w.
Proof. intros q. apply same_mode_refl. Qed.

Lemma same_shape_trans w1 w2 w3 : same_shape w1 w2 → same_shape w2 w3 → same_shape w1 w3.
Proof. intros H1 H2 q. eapply same_mode_trans; [apply H1 | apply H2]. Qed.

Lemma write_if_changed_shape p c c' w r w' :
  holds w p c → write_if_changed p c c' w = (r, w') → same_shape w w'.
Proof.
  intros (f & Hf & Hr & Hd) H. unfold write_if_changed in H.
  case_bool_decide; [|injection H as <- <-; apply same_shape_refl].
  unfold mbind, M_bind, write_text in H. rewrite Hf in H.
  destruct (writable f) eqn:Hw; [|injection H as <- <-; apply same_shape_refl].
  injection H as <- <-. intros q. cbn [files].
  destruct (decide (q = p)) as [->|Hq].
  - rewrite lookup_insert_eq, Hf. cbn [same_mode readable writable]. by rewrite Hw.
  - rewrite lookup_insert_ne by done. apply same_mode_refl.
Qed.

Lemma optimize_file_shape v p w :
  same_shape w (snd (optimize_file v p w)).
Proof.
  destruct v; cbn [optimize_file].
  - destruct (read_text p w) as [r w'] eqn:E.
    destruct (read_text_inv _ _ _ _ E) as [-> [(c & -> & H)|(e & ->)]].
    + rewrite (Simple_optimize_file_holds _ _ _ H).
      destruct (write_if_changed p c _ w) as [r w'] eqn:E'.
      by eapply write_if_changed_shape.
    + unfold Simple.optimize_file. rewrite (bind_raise _ _ _ _ _ E).
      apply same_shape_refl.
  - destruct (Regex_optimize_file_raises p w) as [e ->]. apply same_shape_refl.
Qed.

Lemma for_each_shape v l n w :
  same_shape w (snd (for_each (optimize_file v) l n w)).
Proof.
  revert n w. induction l as [|p l IH]; intros n w; [apply same_shape_refl|].
  rewrite for_each_cons. pose proof (optimize_file_shape v p w) as H.
  destruct (optimize_file v p w) as [[b|e] w1]; [|done].
  eapply same_shape_trans; [exact H | apply IH].
Qed.

Lemma for_each_untouched v l n w q :
  q ∉ l → files (snd (for_each (optimize_file v) l n w)) !! q = files w !! q.
Proof.
  revert n w. induction l as [|p l IH]; intros n w Hq; [done|].
  apply not_elem_of_cons in Hq as [Hqp Hql]. rewrite for_each_cons.
  destruct (optimize_file_cases v p w) as [(e & E)|[E|(w1 & E & Hfr & _)]];
    rewrite E; [done | by apply IH |].
  rewrite IH by done. by apply Hfr.
Qed.

Lemma main_world v glob w :
  files (snd (main v glob w)) = files (snd (for_each (optimize_file v) (glob w) 0 w)).
Proof.
  unfold main, main_with, mbind, M_bind.
  by destruct (for_each _ _ _ _) as [[n|e] w1].
Qed.

(** X10: A run of either script, however it ends, changes nothing but the
    text of files it was given: a path that is not in the listing keeps
    its file, no file appears or disappears, and no permission changes. *)
Theorem main_changes_only_listed_texts v glob w :
  (∀ q, q ∉ glob w → files (snd (main v glob w)) !! q = files w !! q)
  ∧ same_shape w (snd (main v glob w)).
Proof.
  split.
  - intros q Hq. rewrite main_world. by apply for_each_untouched.
  - intros q. rewrite main_world. apply for_each_shape.
Qed.

(** X11: The regular-expression script never changes a file.  On an empty
    listing it prints that it optimized 0 files; otherwise it raises at
    the first path, with the world as it was, and when that file can be
    read the exception is [re.error] for the invalid group reference. *)
Theorem Regex_main_never_writes glob w :
  match glob w with
  | [] => main Regexp glob w = (Ok (), World (files w) (stdout w ++ [Summary 0]))
  | p :: _ =>
      ∃ e, main Regexp glob w = (Raise e, w)
           ∧ ∀ c, holds w p c → e = invalid_group_reference
  end.
Proof.
  unfold main, main_with. destruct (glob w) as [|p rest] eqn:Hglob.
  - done.
  - destruct (Regex_optimize_file_raises p w) as [e E]. exists e. split.
    + apply bind_raise. rewrite for_each_cons.
      cbn [optimize_file]. by rewrite E.
    + intros c Hc. rewrite (Regex_optimize_file_holds _ _ _ Hc) in E. by injection E as <-.
Qed.

Lemma filter_ext_in {A} (P Q : A → Prop)
    `{!∀ x, Decision (P x), !∀ x, Decision (Q x)} (l : list A) :
  Forall (λ x, P x ↔ Q x) l → filter P l = filter Q l.
Proof.
  induction 1 as [|x l Hx _ IH]; [done|]. rewrite !filter_cons, IH.
  destruct (decide (P x)), (decide (Q x)); [done | exfalso; tauto.. | done].
Qed.

Lemma changes_ext w w' p :
  files w' !! p = files w !! p → changes w' p = changes w p.
Proof. unfold changes, text_at. by intros ->. Qed.

Lemma usable_ext w w' p :
  files w' !! p = files w !! p → usable w p → usable w' p.
Proof. unfold usable. by intros ->. Qed.

Lemma Simple_optimize_file_usable p w :
  usable w p →
  ∃ c w', text_at w p = Some c
    ∧ Simple.optimize_file p w = (Ok (changes w p), w')
    ∧ text_at w' p = Some (rewritten c)
    ∧ (∀ q, q ≠ p → files w' !! q = files w !! q)
    ∧ stdout w' = stdout w ++ (if changes w p then [Optimized p] else []).
Proof.
  intros (f & c & Hf & Hd & Hr & Hw).
  assert (holds w p c) as Hh by (by exists f).
  assert (text_at w p = Some c) as Ht by (by apply holds_text_at).
  exists c. unfold changes. rewrite Ht.
  rewrite (Simple_optimize_file_holds _ _ _ Hh). fold (rewritten c).
  case_bool_decide as E.
  - rewrite (write_if_changed_diff _ _ _ _ f) by done. eexists. split; [done|].
    split; [done|]. split; [|split; [|done]].
    + unfold text_at. cbn [files]. by rewrite lookup_insert_eq.
    + intros q Hq. cbn [files]. by rewrite lookup_insert_ne.
  - rewrite E, write_if_changed_same. exists w.
    by rewrite app_nil_r.
Qed.

Lemma for_each_usable l n w :
  NoDup l → Forall (usable w) l →
  ∃ w', for_each Simple.optimize_file l n w
        = (Ok (n + length (filter (λ p, changes w p = true) l))%nat, w')
    ∧ stdout w' = stdout w ++ (Optimized <$> filter (λ p, changes w p = true) l)
    ∧ (∀ q, q ∉ l → files w' !! q = files w !! q)
    ∧ (∀ p, p ∈ l → text_at w' p = rewritten <$> text_at w p).
Proof.
  revert n w. induction l as [|p l IH]; intros n w Hnd Hus.
  - exists w. rewrite Nat.add_0_r, app_nil_r. split; [done|]. split; [done|].
    split; [done|]. intros p Hp. by apply elem_of_nil in Hp.
  - apply NoDup_cons in Hnd as [Hp Hnd]. apply Forall_cons in Hus as [Hup Hus].
    destruct (Simple_optimize_file_usable p w Hup) as (c & w1 & Ht & E & Ht1 & Hfr & Hout).
    assert (∀ q, q ∈ l → files w1 !! q = files w !! q) as Hl.
    { intros q Hq. apply Hfr. by intros ->. }
    destruct (IH (if changes w p then S n else n) w1 Hnd) as (w' & E' & Hout' & Hfr' & Ht').
    { apply Forall_forall. intros q Hq. apply (usable_ext w); [by apply Hl|].
      by eapply Forall_forall in Hus. }
    assert (filter (λ q, changes w1 q = true) l = filter (λ q, changes w q = true) l) as Hfl.
    { apply filter_ext_in. apply Forall_forall. intros q Hq.
      by rewrite (changes_ext w w1 q (Hl q Hq)). }
    rewrite Hfl in E', Hout'.
    exists w'. rewrite for_each_cons, E, E'. split; [|split; [|split]].
    + f_equal. f_equal. rewrite filter_cons. destruct (changes w p) eqn:Hc.
      * rewrite decide_True by done. cbn [length]. lia.
      * rewrite decide_False by done. lia.
    + rewrite Hout', Hout, filter_cons. destruct (changes w p) eqn:Hc.
      * rewrite decide_True by done. by rewrite <- app_assoc.
      * rewrite decide_False by done. by rewrite app_nil_r.
    + intros q Hq. apply not_elem_of_cons in Hq as [Hqp Hql].
      rewrite Hfr' by done. by apply Hfr.
    + intros q Hq. apply elem_of_cons in Hq as [->|Hq].
      * unfold text_at at 1. rewrite Hfr' by done. fold (text_at w1 p).
        by rewrite Ht1, Ht.
      * rewrite Ht' by done. unfold text_at. by rewrite Hl.
Qed.

(** X9: A run of the literal script on a listing without repetition whose
    files can all be read and written: it ends normally; every listed
    file holds its rewritten content; the console shows one line for
    each file that changed, in the order of the listing, and then the
    summary with their number; files that are not listed are as they
    were. *)
Theorem Simple_main_summary glob w :
  NoDup (glob w) → Forall (usable w) (glob w) →
  ∃ w', main Literal glob w = (Ok (), w')
    ∧ stdout w' = stdout w
                  ++ (Optimized <$> filter (λ p, changes w p = true) (glob w))
                  ++ [Summary (length (filter (λ p, changes w p = true) (glob w)))]
    ∧ (∀ p, p ∈ glob w → text_at w' p = rewritten <$> text_at w p)
    ∧ (∀ q, q ∉ glob w → files w' !! q = files w !! q).
Proof.
  intros Hnd Hus.
  destruct (for_each_usable (glob w) 0 w Hnd Hus) as (w1 & E & Hout & Hfr & Ht).
  eexists. split; [|split; [|split]].
  - unfold main, main_with. cbn [optimize_file].
    rewrite (bind_ok _ _ _ _ _ E). reflexivity.
  - cbn [stdout]. by rewrite Hout, <- app_assoc.
  - intros p Hp. unfold text_at. cbn [files]. by apply Ht.
  - intros q Hq. cbn [files]. by apply Hfr.
Qed.

(** ** The first ten rules of the regular-expression script *)

Lemma as_literal_lit r old : as_literal r = Some old → r = Re.lit old.
Proof.
  unfold as_literal. rewrite mapM_Some. induction 1 as [|n c r old Hn _ IH]; [done|].
  destruct n as [[[a| | |]| |]|]; try done. injection Hn as ->.
  unfold Re.lit, Re.lits in *. cbn [fmap list_fmap]. by rewrite IH.
Qed.

Lemma as_text_expand t new m : as_text t = Some new → Re.expand t m = new.
Proof.
  unfold as_text. rewrite mapM_Some. induction 1 as [|x c t new Hx _ IH]; [done|].
  destruct x as [a|]; [|done]. injection Hx as ->.
  unfold Re.expand in *. cbn [flat_map app]. by rewrite IH.
Qed.

Lemma m_nodes_lit old caps s :
  Re.m_nodes (Re.lit old) caps s
  = if startswith old s then Some (caps, drop (length old) s) else None.
Proof.
  revert s. induction old as [|a old IH]; intros s.
  - by destruct s.
  - unfold Re.lit, Re.lits. cbn [fmap list_fmap Re.m_nodes Re.m_atom Re.m_one].
    destruct s as [|b s]; [done|]. cbn [Re.cset_match startswith length drop].
    unfold Re.m_one. cbn [Re.cset_match].
    rewrite (N.eqb_sym b a). destruct (a =? b); [|done].
    cbn [andb]. apply IH.
Qed.

Lemma match_at_lit old s :
  Re.match_at (Re.lit old) s = if startswith old s then Some (old, []) else None.
Proof.
  unfold Re.match_at. rewrite m_nodes_lit.
  destruct (startswith old s) eqn:E; [|done].
  apply startswith_spec in E as [k ->].
  rewrite drop_app_length, length_app.
  replace (length old + length k - length k)%nat with (length old) by lia.
  by rewrite take_app_length.
Qed.

Lemma sub_go_lit old t new skip s :
  old ≠ [] → (∀ m, Re.expand t m = new) →
  Re.sub_go (Re.lit old) t skip s = replace_go old new skip s.
Proof.
  intros Hold Ht. revert skip. induction s as [|c s IH]; intros skip.
  - cbn [Re.sub_go replace_go]. rewrite match_at_lit. by destruct old.
  - destruct skip as [|k]; [|cbn [Re.sub_go replace_go]; apply IH].
    cbn [Re.sub_go]. rewrite replace_go_cons, match_at_lit. destruct (startswith old (c :: s)); [|by rewrite IH].
    destruct old as [|o w]; [done|]. cbn [fst length pred]. by rewrite Ht, IH.
Qed.

Lemma sub_lit old repl t new s :
  old ≠ [] → Re.parse_template (Re.groups (Re.lit old)) repl = Ok t →
  as_text t = Some new →
  Re.sub (Re.lit old) repl s = Ok (replace old new s).
Proof.
  intros Hold Hp Ht. rewrite (sub_ok _ _ _ _ Hp). f_equal.
  rewrite (sub_go_lit old t new) by (done || intros; by apply as_text_expand).
  by destruct old.
Qed.

Lemma literal_rule_sub rule old new s :
  literal_rule rule = Some (old, new) →
  Re.sub (fst rule) (snd rule) s = Ok (replace old new s).
Proof.
  unfold literal_rule. destruct rule as [r repl]. cbn [fst snd].
  destruct (as_literal r) as [old'|] eqn:Hr; [|done].
  destruct (Re.parse_template _ _) as [t|] eqn:Hp; [|done].
  destruct (as_text t) as [new'|] eqn:Ht; [|done].
  case_bool_decide as Hold; [|done]. intros [= -> ->].
  apply as_literal_lit in Hr as ->. by eapply sub_lit.
Qed.

Lemma apply_replacements_literal rules lrules s :
  mapM literal_rule rules = Some lrules →
  Regex.apply_replacements rules s = Ok (Simple.apply_replacements lrules s).
Proof.
  rewrite mapM_Some. intros H. revert s.
  induction H as [|[r repl] [old new] rules lrules Hrule _ IH]; intros s; [done|].
  cbn [Regex.apply_replacements Simple.apply_replacements].
  pose proof (literal_rule_sub (r, repl) old new s Hrule) as E.
  cbn [fst snd] in E. rewrite E. apply IH.
Qed.

(** X12: The first ten rules of the regular-expression script act as literal
    replacements, whatever the content: they do what the first ten rules
    of the literal script do, with the same replacement texts, but with
    patterns that lack the backslashes, so that they look for
    [(currentDate)] where the literal script looks for [\(currentDate)]. *)
Theorem Regex_first_ten_literal c :
  Regex.apply_replacements (take 10 Regex.replacements) c
  = Ok (Simple.apply_replacements (unescaped <$> take 10 Simple.replacements) c).
Proof. apply apply_replacements_literal. by vm_compute. Qed.

(** ** Occurrences under replacement *)

Lemma tails_suffix y s : y ∈ tails s ↔ y ≠ [] ∧ y `suffix_of` s.
Proof.
  induction s as [|c s IH]; cbn [tails].
  - split; [by intros ?%elem_of_nil|]. intros [Hy Hs]. by apply suffix_nil_inv in Hs.
  - rewrite elem_of_cons, IH. split.
    + intros [->|[Hy Hs]]; [done|]. split; [done|]. by apply suffix_cons_r.
    + intros [Hy Hs]. destruct y as [|d y]; [done|].
      apply suffix_cons_inv in Hs as [->|Hs]; auto.
Qed.

Lemma no_overlap_spec a b y :
  no_overlap a b = true → y ≠ [] → y `suffix_of` b →
  ¬ y `prefix_of` a ∧ ¬ a `prefix_of` y.
Proof.
  unfold no_overlap. rewrite forallb_forall. intros H Hy Hs.
  assert (In y (tails b)) as Hin by (by apply list_elem_of_In, tails_suffix).
  apply H in Hin. apply andb_true_iff in Hin as [H1 H2].
  apply negb_true_iff in H1, H2. by rewrite <- !startswith_false.
Qed.

Lemma prefix_app_cases (y a b : str) :
  y `prefix_of` a ++ b → y `prefix_of` a ∨ a `prefix_of` y.
Proof.
  revert a. induction y as [|c y IH]; intros a H; [left; apply prefix_nil|].
  destruct a as [|d a]; [right; apply prefix_nil|].
  cbn [app] in H. pose proof (prefix_cons_inv_1 _ _ _ _ H) as ->.
  apply prefix_cons_inv_2, IH in H as [H|H]; [left | right]; by apply prefix_cons.
Qed.

Lemma occurs_app_cases (x a b : str) :
  occurs x (a ++ b) →
  (∃ a2, a2 ≠ [] ∧ a2 `suffix_of` a ∧ x `prefix_of` a2 ++ b) ∨ occurs x b.
Proof.
  induction a as [|c a IH]; [by right|]. cbn [app]. intros H.
  apply occurs_cons_inv in H as [H|H].
  - left. by exists (c :: a).
  - apply IH in H as [(a2 & ? & ? & ?)|H]; [left | by right].
    exists a2. split; [done|]. split; [by apply suffix_cons_r | done].
Qed.

Lemma rewrites_sym U V s r : rewrites U V s r → rewrites V U r s.
Proof. induction 1; by constructor. Qed.

Lemma rewrites_replace old new s : old ≠ [] → rewrites old new s (replace old new s).
Proof.
  intros Hold. apply (replace_ind old new (rewrites old new)); [done|..]; intros.
  - constructor.
  - by constructor.
  - by constructor.
Qed.

(** A prefix that does not meet [U] is copied. *)
Lemma rewrites_prefix U V X s r y :
  rewrites U V s r → no_overlap U X = true →
  y `suffix_of` X → y `prefix_of` s → y `prefix_of` r.
Proof.
  intros H HX. revert y. induction H as [|t r _ _|c s r _ IH]; intros y Hs Hp.
  - done.
  - destruct y as [|c y]; [apply prefix_nil|].
    destruct (no_overlap_spec U X (c :: y) HX) as [H1 H2]; [done..|].
    by apply prefix_app_cases in Hp as [?|?].
  - destruct y as [|d y]; [apply prefix_nil|].
    pose proof (prefix_cons_inv_1 _ _ _ _ Hp) as ->.
    apply prefix_cons, IH; [|by apply prefix_cons_inv_2 in Hp].
    by eapply suffix_cons_l.
Qed.

(** An occurrence that meets no [U] is still there after the replacement. *)
Lemma rewrites_occurs U V X s r :
  rewrites U V s r → apart U X = true → occurs X s → occurs X r.
Proof.
  intros H HX. apply andb_true_iff in HX as [HUX HXU].
  induction H as [|t r _ IH|c s r H IH]; intros Ho.
  - done.
  - apply occurs_app_cases in Ho as [(a2 & Ha2 & Hs & Hp)|Ho].
    + destruct (no_overlap_spec X U a2 HXU) as [H1 H2]; [done..|].
      by apply prefix_app_cases in Hp as [?|?].
    + by apply occurs_app_r, IH.
  - apply occurs_cons_inv in Ho as [Hp|Ho].
    + apply occurs_prefix.
      by apply (rewrites_prefix U V X (c :: s) (c :: r) X); [constructor|..].
    + by apply occurs_cons, IH.
Qed.

(** [replace] makes no occurrence of a text that is apart from [new]. *)
Lemma replace_no_new old new X s :
  old ≠ [] → apart new X = true → ¬ occurs X s → ¬ occurs X (replace old new s).
Proof.
  intros Hold HX Hs Hr. apply Hs.
  apply (rewrites_occurs new old X (replace old new s) s); [|done..].
  by apply rewrites_sym, rewrites_replace.
Qed.

(** [replace] keeps the occurrences of a text that is apart from [old]. *)
Lemma replace_keeps old new X s :
  old ≠ [] → apart old X = true → occurs X s → occurs X (replace old new s).
Proof.
  intros Hold HX. apply (rewrites_occurs old new); [|done]. by apply rewrites_replace.
Qed.

(** [replace] leaves no occurrence of [old] when [new] is apart from it. *)
Lemma replace_removes old new s :
  old ≠ [] → apart new old = true → ¬ occurs old (replace old new s).
Proof.
  intros Hold HX. pose proof HX as HX'. apply andb_true_iff in HX' as [Hno Hon].
  apply (replace_ind old new (λ s r, rewrites old new s r ∧ ¬ occurs old r)); [done|..].
  - split; [constructor|]. intros (a & b & E). symmetry in E.
    apply app_eq_nil in E as [_ E]. by apply app_eq_nil in E as [? _].
  - intros t r [Hrw IH]. split; [by constructor|]. intros Ho.
    apply occurs_app_cases in Ho as [(a2 & Ha2 & Hs & Hp)|Ho]; [|done].
    destruct (no_overlap_spec old new a2 Hon) as [H1 H2]; [done..|].
    by apply prefix_app_cases in Hp as [?|?].
  - intros c s' r Hnp [Hrw IH]. split; [by constructor|]. intros Ho.
    apply occurs_cons_inv in Ho as [Hp|Ho]; [|done]. apply Hnp.
    apply (rewrites_prefix new old old (c :: r) (c :: s') old); [|done..].
    by apply rewrites_sym; constructor.
Qed.

Lemma closed_table_spec rules :
  closed_table rules = true →
  ∀ r1, r1 ∈ rules → fst r1 ≠ [] ∧ ∀ r2, r2 ∈ rules → apart (snd r2) (fst r1) = true.
Proof.
  unfold closed_table. rewrite forallb_forall. intros H r1 H1.
  apply list_elem_of_In, H, andb_true_iff in H1 as [Hne Hall].
  split; [by apply bool_decide_eq_true in Hne|].
  rewrite forallb_forall in Hall. intros r2 H2. by apply Hall, list_elem_of_In.
Qed.

Lemma apply_replacements_no_new rules X s :
  Forall (λ r, fst r ≠ [] ∧ apart (snd r) X = true) rules →
  ¬ occurs X s → ¬ occurs X (Simple.apply_replacements rules s).
Proof.
  intros H. revert s. induction H as [|[old new] rules [Hold HX] _ IH]; intros s Hs; [done|].
  cbn [Simple.apply_replacements]. apply IH. by apply replace_no_new.
Qed.

Lemma apply_replacements_keeps rules X s :
  Forall (λ r, fst r ≠ [] ∧ apart (fst r) X = true) rules →
  occurs X s → occurs X (Simple.apply_replacements rules s).
Proof.
  intros H. revert s. induction H as [|[old new] rules [Hold HX] _ IH]; intros s Hs; [done|].
  cbn [Simple.apply_replacements]. apply IH. by apply replace_keeps.
Qed.

(** After a pass of a closed table no pattern of the table occurs. *)
Lemma apply_replacements_settled all rules s :
  closed_table all = true → rules ⊆ all →
  Forall (λ r, ¬ occurs (fst r) (Simple.apply_replacements rules s)) rules.
Proof.
  intros Hall. revert s. induction rules as [|[old new] rules IH]; intros s Hsub; [done|].
  assert ((old, new) ∈ all) as Hin by (apply Hsub; left).
  assert (rules ⊆ all) as Hsub' by (intros r Hr; apply Hsub; by right).
  destruct (closed_table_spec all Hall _ Hin) as [Hold Hap]. cbn [fst] in *.
  constructor; [|apply IH; done]. cbn [fst Simple.apply_replacements].
  apply apply_replacements_no_new.
  - apply Forall_forall. intros r Hr. split; [|by apply Hap, Hsub'].
    by apply (closed_table_spec all Hall r), Hsub'.
  - apply replace_removes; [done|]. by apply (Hap (old, new)).
Qed.

Lemma Simple_table_closed : closed_table Simple.replacements = true.
Proof. by vm_compute. Qed.

(** A second pass of the rules changes nothing. *)
Lemma apply_replacements_idempotent s :
  Simple.apply_replacements Simple.replacements
    (Simple.apply_replacements Simple.replacements s)
  = Simple.apply_replacements Simple.replacements s.
Proof.
  apply apply_replacements_absent.
  by apply (apply_replacements_settled Simple.replacements); [apply Simple_table_closed|].
Qed.

(** ** Import lines under replacement *)

Lemma starts_has_nonspace s : starts_nonspace s = true → has_nonspace s = true.
Proof. destruct s as [|c s]; [done|]. cbn. by intros ->. Qed.

Lemma has_nonspace_app a b : has_nonspace (a ++ b) = has_nonspace a || has_nonspace b.
Proof. apply existsb_app. Qed.

Lemma lstrip_app_l a b : has_nonspace a = true → lstrip (a ++ b) = lstrip a ++ b.
Proof.
  induction a as [|c a IH]; [done|]. cbn [has_nonspace existsb app lstrip].
  destruct (isspace c); [apply IH | done].
Qed.

Lemma lstrip_app_r a b : has_nonspace a = false → lstrip (a ++ b) = lstrip b.
Proof.
  induction a as [|c a IH]; [done|]. cbn [has_nonspace existsb app lstrip].
  destruct (isspace c); [apply IH | done].
Qed.

Lemma lstrip_suffix s : lstrip s `suffix_of` s.
Proof.
  induction s as [|c s IH]; [done|]. cbn [lstrip].
  destruct (isspace c); [by apply suffix_cons_r | done].
Qed.

Lemma has_nonspace_reverse s : has_nonspace (reverse s) = has_nonspace s.
Proof.
  induction s as [|c s IH]; [done|].
  rewrite reverse_cons, has_nonspace_app, IH. cbn [has_nonspace existsb].
  rewrite orb_false_r. apply orb_comm.
Qed.

Lemma rstrip_prefix s : rstrip s `prefix_of` s.
Proof.
  unfold rstrip. apply prefix_suffix_reverse. rewrite reverse_involutive.
  apply lstrip_suffix.
Qed.

Lemma rstrip_app_l a b : has_nonspace b = true → rstrip (a ++ b) = a ++ rstrip b.
Proof.
  intros H. unfold rstrip. rewrite reverse_app, lstrip_app_l, reverse_app.
  - by rewrite reverse_involutive.
  - by rewrite has_nonspace_reverse.
Qed.

Lemma rstrip_app_r a b : has_nonspace b = false → rstrip (a ++ b) = rstrip a.
Proof.
  intros H. unfold rstrip. rewrite reverse_app, lstrip_app_r; [done|].
  by rewrite has_nonspace_reverse.
Qed.

(** An import line: after the leading white space comes [import ], and
    then something that is not white space. *)
Lemma is_import_line_spec l :
  is_import_line l = true
  ↔ ∃ t, lstrip l = import_prefix ++ t ∧ has_nonspace t = true.
Proof.
  unfold is_import_line, strip. fold import_prefix. split.
  - intros H. apply startswith_spec in H.
    assert (import_prefix `prefix_of` lstrip l) as [t Ht].
    { etrans; [exact H | apply rstrip_prefix]. }
    exists t. split; [done|]. destruct (has_nonspace t) eqn:Hn; [done|].
    rewrite Ht, rstrip_app_r in H by done. apply startswith_spec in H.
    by vm_compute in H.
  - intros (t & -> & Hn). rewrite rstrip_app_l by done.
    apply startswith_spec. by exists (rstrip t).
Qed.

(** A prefix that cannot meet [U] is copied, and the rest is rewritten. *)
Lemma rewrites_split U V X s r y t :
  rewrites U V s r → no_overlap U X = true → y `suffix_of` X →
  s = y ++ t → ∃ t', r = y ++ t' ∧ rewrites U V t t'.
Proof.
  intros H HX. revert s r H. induction y as [|c y IH]; intros s r H Hs Es.
  - exists r. by subst.
  - destruct (no_overlap_spec U X (c :: y) HX) as [H1 H2]; [done..|].
    destruct H as [|t0 r0 H0|c0 s0 r0 H0].
    + done.
    + assert (U `prefix_of` (c :: y) ++ t) as Hp by (rewrite <- Es; by exists t0).
      by apply prefix_app_cases in Hp as [?|?].
    + injection Es as -> ->.
      destruct (IH _ _ H0) as (t' & -> & Ht'); [by eapply suffix_cons_l | done|].
      by exists t'.
Qed.

Lemma rewrites_has_nonspace U V s r :
  rewrites U V s r → has_nonspace V = true →
  has_nonspace s = true → has_nonspace r = true.
Proof.
  intros H HV. induction H as [|t r _ _|c s r _ IH]; [done| |].
  - intros _. by rewrite has_nonspace_app, HV.
  - cbn [has_nonspace existsb]. intros [->|Hs]%orb_true_iff; [done|].
    fold (has_nonspace s) in Hs. fold (has_nonspace r). rewrite IH by done.
    apply orb_true_r.
Qed.

Lemma rewrites_import_line U V s r :
  rewrites U V s r →
  starts_nonspace U = true → no_overlap U import_prefix = true →
  has_nonspace V = true →
  is_import_line s = true → is_import_line r = true.
Proof.
  intros H HU HP HV. rewrite !is_import_line_spec.
  induction H as [|t r H _|c s r H IH]; intros (x & Hx & Hn).
  - cbn [lstrip] in Hx. symmetry in Hx. apply app_eq_nil in Hx as [Hx _].
    by vm_compute in Hx.
  - destruct U as [|u U]; [done|]. cbn [starts_nonspace] in HU.
    apply negb_true_iff in HU. cbn [app lstrip] in Hx. rewrite HU in Hx.
    destruct (no_overlap_spec (u :: U) import_prefix import_prefix HP) as [H1 H2];
      [done..|].
    assert (import_prefix `prefix_of` (u :: U) ++ t) as Hp
      by (cbn [app]; rewrite Hx; by exists x).
    by apply prefix_app_cases in Hp as [?|?].
  - cbn [lstrip] in *. destruct (isspace c) eqn:Hc; [by apply IH; exists x|].
    destruct (rewrites_split U V import_prefix (c :: s) (c :: r) import_prefix x)
      as (x' & -> & Hx'); [by constructor | done..|].
    exists x'. split; [done|]. by eapply rewrites_has_nonspace.
Qed.

Lemma replace_import_line old new l :
  import_safe (old, new) = true →
  is_import_line (replace old new l) = is_import_line l.
Proof.
  unfold import_safe. cbn [fst snd].
  intros [[[Ho Hn]%andb_true_iff Hop]%andb_true_iff Hnp]%andb_true_iff.
  assert (old ≠ []) as Hold by (by destruct old).
  pose proof (rewrites_replace old new l Hold) as H.
  destruct (is_import_line l) eqn:E.
  - apply (rewrites_import_line old new l); [done..|by apply starts_has_nonspace|done].
  - destruct (is_import_line (replace old new l)) eqn:E'; [|done].
    rewrite <- E. symmetry.
    apply (rewrites_import_line new old (replace old new l));
      [by apply rewrites_sym|done..|by apply starts_has_nonspace|done].
Qed.

Lemma apply_replacements_import_line rules l :
  Forall (λ rule, import_safe rule = true) rules →
  is_import_line (Simple.apply_replacements rules l) = is_import_line l.
Proof.
  intros H. revert l. induction H as [|[old new] rules Hr _ IH]; intros l; [done|].
  cbn [Simple.apply_replacements]. by rewrite IH, replace_import_line.
Qed.

Lemma Simple_rules_import_safe :
  Forall (λ rule, import_safe rule = true) Simple.replacements.
Proof. apply (bool_decide_unpack _). by vm_compute. Qed.

Lemma last_index_fmap {A} (P : A → bool) (f : A → A) l :
  (∀ x, P (f x) = P x) → last_index P (f <$> l) = last_index P l.
Proof.
  intros H. induction l as [|x l IH]; [done|].
  cbn [fmap list_fmap last_index]. fold (f <$> l). by rewrite IH, H.
Qed.

Lemma Simple_rules_keep_target :
  Forall (λ r, fst r ≠ [] ∧ apart (fst r) target_import = true) Simple.replacements.
Proof. apply (bool_decide_unpack _). by vm_compute. Qed.

(** ** Idempotence of the literal script *)

Lemma add_import_rewritten c : Simple.add_import (rewritten c) = rewritten c.
Proof.
  apply Simple_add_import_kept.
  destruct (contains target_import c) eqn:Ht.
  { left. apply contains_spec. unfold rewritten.
    rewrite Simple_add_import_kept by auto.
    apply apply_replacements_keeps; [apply Simple_rules_keep_target|].
    by apply contains_spec. }
  destruct (contains print_marker c) eqn:Hm.
  2:{ right; left. unfold rewritten. rewrite Simple_add_import_kept by auto.
      rewrite apply_replacements_no_marker; [done|]. by apply contains_false. }
  destruct (last_index is_import_line (split newline c)) as [k|] eqn:Hk.
  - left. apply contains_spec. apply (occurs_line newline).
    rewrite rewritten_lines, (Simple_add_import_inserted c k) by done.
    rewrite fmap_list_insert_at, (proj2 (apply_replacements_target target_import) eq_refl).
    unfold list_insert_at. apply elem_of_app. right. left.
  - right; right. rewrite rewritten_lines, Simple_add_import_kept by auto.
    rewrite last_index_fmap; [done|].
    intros l. apply apply_replacements_import_line, Simple_rules_import_safe.
Qed.

Lemma rewritten_idempotent c : rewritten (rewritten c) = rewritten c.
Proof.
  unfold rewritten at 1. rewrite add_import_rewritten.
  unfold rewritten. apply apply_replacements_idempotent.
Qed.

(** X7: What the literal script computes is a fixed point of each of its
    steps: in its output the import step inserts nothing, no pattern of
    the table occurs any more, and so the script computes this output
    from it again. *)
Theorem Simple_output_is_fixed_point c :
  Simple.add_import (rewritten c) = rewritten c
  ∧ Forall (λ rule, contains (fst rule) (rewritten c) = false) Simple.replacements
  ∧ rewritten (rewritten c) = rewritten c.
Proof.
  split; [apply add_import_rewritten|]. split; [|apply rewritten_idempotent].
  eapply Forall_impl.
  - by apply (apply_replacements_settled Simple.replacements Simple.replacements
                (Simple.add_import c)); [apply Simple_table_closed|].
  - intros rule H. by apply contains_false.
Qed.

(** X8: The literal script is idempotent on a file it can read and write:
    after a first call, a second call returns [False] and changes
    nothing, neither the file nor the console. *)
Theorem Simple_second_run p w :
  usable w p →
  ∃ b w1, Simple.optimize_file p w = (Ok b, w1)
          ∧ Simple.optimize_file p w1 = (Ok false, w1).
Proof.
  intros (f & c & Hf & Hd & Hr & Hw).
  assert (holds w p c) as Hh by (by exists f).
  rewrite (Simple_optimize_file_holds _ _ _ Hh). fold (rewritten c).
  destruct (decide (rewritten c = c)) as [E|E].
  - exists false, w. rewrite E, write_if_changed_same. split; [done|].
    rewrite (Simple_optimize_file_holds _ _ _ Hh). fold (rewritten c).
    rewrite E. apply write_if_changed_same.
  - rewrite (write_if_changed_diff _ _ _ _ f) by done. eexists _, _. split; [done|].
    set (w1 := World _ _).
    assert (holds w1 p (rewritten c)) as Hh1.
    { eexists. split; [apply lookup_insert_eq|done]. }
    rewrite (Simple_optimize_file_holds _ _ _ Hh1). fold (rewritten (rewritten c)).
    rewrite rewritten_idempotent. apply write_if_changed_same.
Qed.

(** ** Every occurrence of a pattern is replaced *)

Lemma prefix_straddle (old a m : str) :
  old `prefix_of` a ++ m → ¬ old `prefix_of` a →
  ∃ o2, old = a ++ o2 ∧ o2 ≠ [] ∧ o2 `prefix_of` m.
Proof.
  intros H Hn. apply prefix_app_cases in H as H'. destruct H' as [?|[o2 ->]]; [done|].
  exists o2. split; [done|]. split.
  - intros ->. apply Hn. by rewrite app_nil_r.
  - by apply prefix_app_inv in H.
Qed.

Lemma replace_skip_apart old new X y b :
  old ≠ [] → no_overlap old X = true → y `suffix_of` X →
  replace old new (y ++ b) = y ++ replace old new b.
Proof.
  intros Hold HX. induction y as [|c y IH]; intros Hs; [done|].
  cbn [app]. rewrite replace_nomatch; [|done|].
  - f_equal. apply IH. by eapply suffix_cons_l.
  - destruct (no_overlap_spec old X (c :: y) HX) as [H1 H2]; [done..|].
    intros Hp. by apply (prefix_app_cases old (c :: y) b) in Hp as [?|?].
Qed.

Lemma replace_app_apart old new X a b :
  old ≠ [] → apart old X = true →
  replace old new (a ++ X ++ b) = replace old new a ++ X ++ replace old new b.
Proof.
  intros Hold [HoX HXo]%andb_true_iff. revert a.
  apply (replace_ind old new
           (λ a r, replace old new (a ++ X ++ b) = r ++ X ++ replace old new b));
    [done|..].
  - cbn [app]. by apply replace_skip_apart with X.
  - intros t r IH. by rewrite <- !(assoc_L (++)), replace_match, IH.
  - intros c s r Hnp IH. cbn [app]. rewrite replace_nomatch, IH; [done..|].
    intros Hp. destruct (prefix_straddle old (c :: s) (X ++ b) Hp Hnp) as (o2 & -> & Ho2 & Hm).
    destruct (no_overlap_spec X ((c :: s) ++ o2) o2 HXo) as [H1 H2];
      [done | by apply suffix_app_r|].
    by apply prefix_app_cases in Hm as [?|?].
Qed.

Lemma replace_app_self old new a b :
  old ≠ [] → border_free old = true →
  replace old new (a ++ old ++ b) = replace old new a ++ new ++ replace old new b.
Proof.
  intros Hold Hb. revert a.
  apply (replace_ind old new
           (λ a r, replace old new (a ++ old ++ b) = r ++ new ++ replace old new b));
    [done|..].
  - cbn [app]. by apply replace_match.
  - intros t r IH. by rewrite <- !(assoc_L (++)), replace_match, IH.
  - intros c s r Hnp IH. cbn [app]. rewrite replace_nomatch, IH; [done..|].
    intros Hp.
    destruct (prefix_straddle old (c :: s) (old ++ b) Hp Hnp) as (o2 & E & Ho2 & Hm).
    apply prefix_app_cases in Hm as [Hm|Hm].
    + unfold border_free in Hb. rewrite forallb_forall in Hb.
      assert (In o2 (tails (tail old))) as Hin.
      { apply list_elem_of_In, tails_suffix. split; [done|].
        rewrite E. cbn [app tail]. by apply suffix_app_r. }
      apply Hb, negb_true_iff, startswith_false in Hin. done.
    + apply prefix_length in Hm. rewrite E, length_app in Hm. cbn [length] in Hm. lia.
Qed.

Lemma apply_replacements_app_apart rules X a b :
  Forall (λ r, fst r ≠ [] ∧ apart (fst r) X = true) rules →
  Simple.apply_replacements rules (a ++ X ++ b)
  = Simple.apply_replacements rules a ++ X ++ Simple.apply_replacements rules b.
Proof.
  intros H. revert a b. induction H as [|[old new] rules [Hold HX] _ IH]; intros a b; [done|].
  cbn [Simple.apply_replacements]. by rewrite replace_app_apart, IH.
Qed.

Lemma splits_lookup {A} (l : list A) i x :
  l !! i = Some x → (take i l, x, drop (S i) l) ∈ splits l.
Proof.
  revert i. induction l as [|y l IH]; intros [|i] H; try done.
  - injection H as ->. cbn [splits take drop]. rewrite drop_0. left.
  - cbn [splits take drop]. right. apply list_elem_of_fmap.
    exists (take i l, x, drop (S i) l). split; [done|]. by apply IH.
Qed.

Lemma Forall_apart_spec (rules : list (str * str)) X :
  forallb (λ r, bool_decide (fst r ≠ []) && apart (fst r) X) rules = true →
  Forall (λ r, fst r ≠ [] ∧ apart (fst r) X = true) rules.
Proof.
  rewrite forallb_forall. intros H. apply Forall_forall. intros r Hr.
  apply list_elem_of_In, H, andb_true_iff in Hr as [H1 H2].
  by apply bool_decide_eq_true in H1.
Qed.

Lemma stands_alone_replaced pre old new post a b :
  stands_alone pre (old, new) post = true →
  Simple.apply_replacements (pre ++ (old, new) :: post) (a ++ old ++ b)
  = Simple.apply_replacements (pre ++ (old, new) :: post) a ++ new
    ++ Simple.apply_replacements (pre ++ (old, new) :: post) b.
Proof.
  unfold stands_alone. cbn [fst snd].
  intros [[[Hold Hb]%andb_true_iff Hpre]%andb_true_iff Hpost]%andb_true_iff.
  apply bool_decide_eq_true in Hold.
  rewrite !apply_replacements_app. cbn [Simple.apply_replacements].
  rewrite (apply_replacements_app_apart pre) by by apply Forall_apart_spec.
  rewrite replace_app_self by done.
  by rewrite (apply_replacements_app_apart post) by by apply Forall_apart_spec.
Qed.

Lemma Simple_rules_stand_alone :
  Forall (λ s, stands_alone (fst (fst s)) (snd (fst s)) (snd s) = true)
         (splits Simple.replacements).
Proof. apply (bool_decide_unpack _). by vm_compute. Qed.

(** X6: Every occurrence of a pattern of the literal table is replaced by
    the text of its rule, wherever it stands: the content around it is
    rewritten as it would be on its own. *)
Theorem Simple_occurrence_replaced i old new a b :
  Simple.replacements !! i = Some (old, new) →
  Simple.apply_replacements Simple.replacements (a ++ old ++ b)
  = Simple.apply_replacements Simple.replacements a ++ new
    ++ Simple.apply_replacements Simple.replacements b.
Proof.
  intros Hi. pose proof (splits_lookup _ _ _ Hi) as Hin.
  pose proof Simple_rules_stand_alone as H. rewrite Forall_forall in H.
  apply H in Hin. cbn [fst snd] in Hin.
  rewrite <- (take_drop_middle _ _ _ Hi). by apply stands_alone_replaced.
Qed.

(** ** The import step, twice *)

Lemma Simple_add_import_target c :
  Simple.add_import c = c ∨ contains target_import (Simple.add_import c) = true.
Proof.
  destruct (contains target_import c) eqn:Ht; [left; apply Simple_add_import_kept; auto|].
  destruct (contains print_marker c) eqn:Hm; [|left; apply Simple_add_import_kept; auto].
  destruct (last_index is_import_line (split newline c)) as [k|] eqn:Hk;
    [|left; apply Simple_add_import_kept; auto].
  right. apply contains_spec, (occurs_line newline).
  rewrite (Simple_add_import_inserted c k) by done.
  unfold list_insert_at. apply elem_of_app. right. left.
Qed.

Lemma Regex_add_import_target c :
  Regex.add_import c = c ∨ contains target_import (Regex.add_import c) = true.
Proof.
  unfold Regex.add_import.
  destruct (negb _ && _); [|by left].
  destruct (last _) as [last_import|]; [|by left].
  set (new := last_import ++ _).
  assert (occurs target_import new) as Hnew.
  { exists last_import, [newline]. done. }
  destruct last_import as [|x l].
  - right. apply contains_spec. unfold replace. by apply occurs_app_l.
  - destruct (replace_same_or_new (x :: l) new c) as [E|H]; [done|by left|].
    right. apply contains_spec. by eapply occurs_trans.
Qed.

Lemma Regex_add_import_kept c :
  contains target_import c = true → Regex.add_import c = c.
Proof. unfold Regex.add_import. by intros ->. Qed.

(** X13: The import step of either script adds at most once: applied to its
    own result it changes nothing, because a result that differs from
    the content holds the target import. *)
Theorem add_import_idempotent v c :
  (add_import v c = c ∨ contains target_import (add_import v c) = true)
  ∧ add_import v (add_import v c) = add_import v c.
Proof.
  assert (add_import v c = c ∨ contains target_import (add_import v c) = true) as H
    by (destruct v; [apply Simple_add_import_target | apply Regex_add_import_target]).
  split; [done|]. destruct H as [E|H]; [by rewrite !E|].
  destruct v; [apply Simple_add_import_kept; auto | by apply Regex_add_import_kept].
Qed.

(** ** Further instances *)

Lemma Simple_no_marker_untouched_witness :
  Simple.optimize_file "A.swift" (one_file "A.swift" no_print_swift)
  = (Ok false, one_file "A.swift" no_print_swift).
Proof.
  apply (Simple_no_marker_untouched "A.swift" _ no_print_swift).
  - exists (File (Some no_print_swift) true true). by vm_compute.
  - by vm_compute.
Defined.

Lemma Simple_write_iff_changed_witness :
  Simple.optimize_file "A.swift" (one_file "A.swift" journal_swift) =
  if bool_decide (rewritten journal_swift = journal_swift)
  then (Ok false, one_file "A.swift" journal_swift)
  else if writable (File (Some journal_swift) true true) then
    (Ok true,
     World (<["A.swift"%string := File (Some (rewritten journal_swift)) true true]>
              (files (one_file "A.swift" journal_swift)))
           (stdout (one_file "A.swift" journal_swift) ++ [Optimized "A.swift"]))
  else (Raise (PermissionError "A.swift"), one_file "A.swift" journal_swift).
Proof.
  apply (Simple_write_iff_changed "A.swift" (one_file "A.swift" journal_swift)
           (File (Some journal_swift) true true) journal_swift).
  - by vm_compute.
  - reflexivity.
  - reflexivity.
Defined.

Lemma Simple_import_after_last_witness :
  match last_index is_import_line (split newline journal_swift) with
  | Some k =>
      (∃ line, split newline journal_swift !! k = Some line ∧ is_import_line line = true)
      ∧ (∀ j line, (k < j)%nat → split newline journal_swift !! j = Some line →
                   is_import_line line = false)
      ∧ split newline (rewritten journal_swift)
        = list_insert_at (S k) target_import
            (Simple.apply_replacements Simple.replacements <$> split newline journal_swift)
  | None =>
      Simple.add_import journal_swift = journal_swift
      ∧ rewritten journal_swift
        = Simple.apply_replacements Simple.replacements journal_swift
  end.
Proof.
  apply (Simple_import_after_last journal_swift).
  - by vm_compute.
  - by vm_compute.
Defined.

Lemma Simple_import_only_witness :
  rewritten debug_swift
  = join [newline] (list_insert_at 1 target_import (split newline debug_swift))
  ∧ Simple.optimize_file "A.swift" (one_file "A.swift" debug_swift)
    = (Ok true,
       World (<["A.swift"%string := File (Some (rewritten debug_swift)) true true]>
                (files (one_file "A.swift" debug_swift)))
             (stdout (one_file "A.swift" debug_swift) ++ [Optimized "A.swift"])).
Proof.
  apply (Simple_import_only "A.swift" (one_file "A.swift" debug_swift)
           (File (Some debug_swift) true true) debug_swift 0).
  - by vm_compute.
  - reflexivity.
  - reflexivity.
  - reflexivity.
  - by vm_compute.
  - by vm_compute.
  - by vm_compute.
  - apply (bool_decide_unpack _). by vm_compute.
Defined.

Lemma Simple_second_run_witness :
  ∃ b w1,
    Simple.optimize_file "A.swift" (one_file "A.swift" journal_swift) = (Ok b, w1)
    ∧ Simple.optimize_file "A.swift" w1 = (Ok false, w1).
Proof.
  apply (Simple_second_run "A.swift" (one_file "A.swift" journal_swift)).
  exists (File (Some journal_swift) true true), journal_swift. by vm_compute.
Defined.

Lemma Simple_occurrence_replaced_witness :
  Simple.apply_replacements Simple.replacements
    (py "save(); " ++ saved_print ++ py " // done")
  = Simple.apply_replacements Simple.replacements (py "save(); ") ++ saved_log
    ++ Simple.apply_replacements Simple.replacements (py " // done").
Proof.
  apply (Simple_occurrence_replaced 8 saved_print saved_log).
  by vm_compute.
Defined.

Lemma Simple_main_summary_witness :
  ∃ w',
    main Literal (λ _, two_paths) two_files = (Ok (), w')
    ∧ stdout w'
      = stdout two_files
        ++ (Optimized <$> filter (λ p, changes two_files p = true) two_paths)
        ++ [Summary (length (filter (λ p, changes two_files p = true) two_paths))]
    ∧ (∀ p, p ∈ two_paths → text_at w' p = rewritten <$> text_at two_files p)
    ∧ (∀ q, q ∉ two_paths → files w' !! q = files two_files !! q).
Proof.
  apply (Simple_main_summary (λ _, two_paths) two_files).
  - apply (bool_decide_unpack _). by vm_compute.
  - repeat apply Forall_cons_2; [..|apply Forall_nil_2];
      exists (File (Some journal_swift) true true), journal_swift; by vm_compute.
Defined.
